(** * Employee management API: attendance consistency, batch loaders and
      query building

    A shallow embedding of the attendance/loader/query core of the
    employee-management GraphQL service, together with the properties its
    specification states about it.

    Modelling conventions.
    - The document store is a value: the [employees] collection is a finite map
      from [_id] to document (the store's primary key is unique by
      construction), the attendance collection is the list of its documents in
      insertion order.
    - A string is its UTF-8 encoding; [length] counts UTF-16 code units, as
      JavaScript does.
    - An [ObjectId] is held as the 24 lower-case hexadecimal digits its
      [toString] prints. [new Types.ObjectId(s)] accepts a string of 12 bytes
      or of 24 hexadecimal digits and throws on any other string; the store
      library casts ids with the same constructor.
    - A JavaScript [number] is the rational value of an IEEE 754 double.
      Division and multiplication round to the nearest double, ties to even;
      the exponent range is not modelled (no quantity here leaves the normal
      range: counts are array lengths, page numbers are 32-bit integers).
    - A [Date] is its [getTime()] value in milliseconds, or [InvalidDate].
    - [new Date()] reads a wall clock that is part of the world: the k-th read
      of a run returns [wall k]; properties that need time to move forward say
      so through [monotone_clock].
    - Asynchronous calls are sequenced as the [await]s sequence them; thrown
      errors are the [Throw] outcome of a small state-and-error monad.
    - The message of an error raised inside a library (driver, store library,
      bson) is kept symbolic: which error it is and what it is about, not its
      wording.
    - The connection is up, and a stored employee document passes the
      schema's validators when it is saved again, as every document written
      through the API does. *)

From Stdlib Require Import ZArith QArith Qround Qabs Qpower Lia Lqa Ascii String.
From Stdlib Require Import Sorting.Sorted Sorting.Permutation.
From stdpp Require Import gmap strings list fin_maps.

Set Default Proof Using "Type".
Local Open Scope Z_scope.

(** ** Strings *)

(** The UTF-16 code units a byte of UTF-8 text stands for: a continuation
    byte none, the lead byte of a four-byte sequence two (a surrogate pair),
    any other byte one. *)
Definition utf16_units (c : ascii) : nat :=
  let n := nat_of_ascii c in
  if (n <? 128)%nat then 1%nat
  else if (n <? 192)%nat then 0%nat
  else if (n <? 240)%nat then 1%nat
  else 2%nat.

(** [String.prototype.length]. *)
Fixpoint js_length (s : string) : nat :=
  match s with
  | EmptyString => 0%nat
  | String c s' => (utf16_units c + js_length s')%nat
  end.

Fixpoint all_chars (p : ascii → bool) (s : string) : bool :=
  match s with
  | EmptyString => true
  | String c s' => p c && all_chars p s'
  end.

Definition lower (c : ascii) : ascii :=
  let n := nat_of_ascii c in
  if (65 <=? n)%nat && (n <=? 90)%nat then ascii_of_nat (n + 32) else c.

(** [String.prototype.toLowerCase], on the ASCII letters. *)
Fixpoint toLowerCase (s : string) : string :=
  match s with
  | EmptyString => EmptyString
  | String c s' => String (lower c) (toLowerCase s')
  end.

(** ** Object ids (bson) *)

Abbreviation ObjectId := string.

(** [/^[0-9a-fA-F]$/]. *)
Definition is_hex (c : ascii) : bool :=
  let n := nat_of_ascii c in
  ((48 <=? n)%nat && (n <=? 57)%nat) ||
  ((65 <=? n)%nat && (n <=? 70)%nat) ||
  ((97 <=? n)%nat && (n <=? 102)%nat).

Definition hex_digit (n : nat) : ascii :=
  if (n <? 10)%nat then ascii_of_nat (48 + n) else ascii_of_nat (87 + n).

(** [ObjectId.prototype.toHexString] of an id given by its bytes. *)
Fixpoint toHexString (bytes : string) : string :=
  match bytes with
  | EmptyString => EmptyString
  | String c rest =>
      String (hex_digit (nat_of_ascii c / 16))
        (String (hex_digit (nat_of_ascii c mod 16)) (toHexString rest))
  end.

(** The id [new Types.ObjectId(s)] constructs from a string, or [None] where
    the constructor throws: a string of length 12 must be 12 bytes long and
    gives the id of these bytes; a string of length 24 must be hexadecimal
    digits and gives the id they spell; any other string is refused. *)
Definition ObjectId_from (s : string) : option ObjectId :=
  if (js_length s =? 12)%nat then
    if (String.length s =? 12)%nat then Some (toHexString s) else None
  else if (js_length s =? 24)%nat && all_chars is_hex s then
    Some (toLowerCase s)
  else None.

(** ** Data model (types/index.ts, models/*.ts) *)

Inductive UserRole := ADMIN | EMPLOYEE.

Global Instance UserRole_eq_dec : EqDecision UserRole.
Proof. solve_decision. Defined.

Record User := {
  user_id : string;
  user_role : UserRole;
  user_email : string;
  user_name : option string
}.

(** A JavaScript [Date]: a time value in milliseconds, or the invalid date
    whose [getTime()] is NaN. *)
Inductive JsDate :=
| DateMs (ms : Z)
| InvalidDate.

(** IEmployeeBase; the document's [_id] is its key in the collection. *)
Record Employee := {
  emp_name : string;
  emp_email : string;
  emp_age : Z;
  emp_phone : option string;
  emp_class : string;
  emp_subjects : list string;
  attendance : Q;
  emp_role : UserRole;
  dateOfJoining : Z;
  lastAttendanceUpdate : option Z;
  emp_createdAt : Z;
  emp_updatedAt : Z
}.

(** IAttendanceRecordBase. *)
Record AttendanceRecord := {
  employeeId : ObjectId;
  date : Z;
  present : bool;
  notes : option string;
  createdBy : ObjectId;
  rec_createdAt : Z
}.

(** AttendanceInput. *)
Record AttendanceInput := {
  ai_employeeId : string;
  ai_date : JsDate;
  ai_present : bool;
  ai_notes : option string
}.

Record DateRangeInput := {
  startDate : JsDate;
  endDate : JsDate
}.

(** The message of an error: a text the repository's code writes, or the
    message of an error raised inside a library, which is kept symbolic. *)
Inductive Message :=
| Text (s : string)
| BSONErrorMessage (value : string)
| CastErrorMessage (value path : string)
| ValidationErrorMessage (paths : list string)
| DuplicateKeyMessage (id : ObjectId) (d : Z)
| RegexErrorMessage (pattern : string)
| SkipErrorMessage (skip : Z)
| DataLoaderErrorMessage.

Coercion Text : string >-> Message.

(** ValidationError: [{ field?, message, code }]. *)
Record ValidationError := {
  ve_field : option string;
  ve_message : Message;
  ve_code : string
}.

(** MutationResponse of the resolvers, without the [employee] payload that
    [markAttendance] never sets. *)
Record MutationResponse := {
  success : bool;
  mr_message : option string;
  mr_errors : option (list ValidationError)
}.

(** ** The world: store and clock *)

Record Store := {
  employees : gmap string Employee;
  attendanceRecords : list AttendanceRecord
}.

Record World := {
  db : Store;
  ticks : nat;
  wall : nat → Z
}.

Definition monotone_clock (w : World) : Prop :=
  ∀ i j : nat, (i ≤ j)%nat → wall w i ≤ wall w j.

(** A thrown JavaScript [Error]: its message and, for a [GraphQLError], the
    [extensions.code]. *)
Record JsError := {
  err_message : Message;
  err_code : option string
}.

Definition GraphQLError (message : Message) (code : option string) : JsError :=
  {| err_message := message; err_code := code |}.

Definition Error (message : Message) : JsError :=
  {| err_message := message; err_code := None |}.

Inductive Outcome (A : Type) :=
| Return (a : A)
| Throw (e : JsError).
Arguments Return {A} a.
Arguments Throw {A} e.

Definition M (A : Type) : Type := World → Outcome A * World.

Definition ret {A} (a : A) : M A := fun w => (Return a, w).

Definition throw {A} (e : JsError) : M A := fun w => (Throw e, w).

Definition bind {A B} (m : M A) (k : A → M B) : M B :=
  fun w =>
    match m w with
    | (Return a, w') => k a w'
    | (Throw e, w') => (Throw e, w')
    end.

Definition try_catch {A} (m : M A) (handler : JsError → M A) : M A :=
  fun w =>
    match m w with
    | (Return a, w') => (Return a, w')
    | (Throw e, w') => handler e w'
    end.

Notation "'let*' x ':=' m 'in' k" := (bind m (fun x => k))
  (at level 10, x name, m at level 100, k at level 200,
   format "'[v' 'let*'  x  ':='  m  'in' '/' k ']'").
Notation "'exec' m 'in' k" := (bind m (fun _ => k))
  (at level 10, m at level 100, k at level 200,
   format "'[v' 'exec'  m  'in' '/' k ']'").

(** A computation that does not touch the world. *)
Definition lift {A} (o : Outcome A) : M A := fun w => (o, w).

(** [new Date()]. *)
Definition newDate : M Z :=
  fun w => (Return (wall w (ticks w)),
            {| db := db w; ticks := S (ticks w); wall := wall w |}).

Definition getStore : M Store := fun w => (Return (db w), w).

Definition putStore (s : Store) : M unit :=
  fun w => (Return tt, {| db := s; ticks := ticks w; wall := wall w |}).

(** ** Validation (utils/validation.ts) *)

(** [date instanceof Date && !isNaN(date.getTime()) && date <= new Date()];
    the conjunction short-circuits, so the clock is read only for a valid
    date. *)
Definition validateDate (d : JsDate) : M bool :=
  match d with
  | InvalidDate => ret false
  | DateMs t => let* now := newDate in ret (t <=? now)
  end.

Definition INVALID_DATE : ValidationError :=
  {| ve_field := Some "date";
     ve_message := "Invalid date or future date not allowed";
     ve_code := "INVALID_DATE" |}.

Definition INVALID_NOTES : ValidationError :=
  {| ve_field := Some "notes";
     ve_message := "Notes cannot exceed 500 characters";
     ve_code := "INVALID_NOTES" |}.

(** [input.notes && input.notes.length > 500]: an absent or empty note is
    falsy. *)
Definition notes_too_long (n : option string) : bool :=
  match n with
  | Some s => negb (String.eqb s "") && (500 <? js_length s)%nat
  | None => false
  end.

Definition validateAttendanceInput (input : AttendanceInput)
  : M (list ValidationError) :=
  let* ok := validateDate (ai_date input) in
  let errors : list ValidationError := [] in
  let errors := if ok then errors else errors ++ [INVALID_DATE] in
  let errors :=
    if notes_too_long (ai_notes input) then errors ++ [INVALID_NOTES]
    else errors in
  ret errors.

(** ** Access control (middleware/auth.ts) *)

(** [createAuthError(message, { extensions: { code } })] hands the whole
    options object to [GraphQLError] as its [extensions], so the code ends up
    at [extensions.extensions.code] and the error's [extensions.code] is not
    set. *)
Definition createAuthError (message : string) (code : string) : JsError :=
  GraphQLError message None.

Definition checkRole (requiredRoles : list UserRole) (user : option User)
  : Outcome bool :=
  match user with
  | None => Throw (createAuthError "Authentication required" "UNAUTHENTICATED")
  | Some u =>
      if bool_decide (user_role u ∈ requiredRoles) then Return true
      else Throw (createAuthError "Not authorized" "FORBIDDEN")
  end.

Definition canAccessEmployeeData (user : option User) (id : string) : bool :=
  match user with
  | None => false
  | Some u =>
      match user_role u with
      | ADMIN => true
      | EMPLOYEE => bool_decide (user_id u = id)
      end
  end.

(** ** Store adapter: the calls the models make on the two collections *)

(** [new Types.ObjectId(s)]. *)
Definition new_ObjectId (s : string) : Outcome ObjectId :=
  match ObjectId_from s with
  | Some id => Return id
  | None => Throw (Error (BSONErrorMessage s))
  end.

(** [Employee.findById(id)]: the store library casts [id] to an object id
    and rejects the query when it cannot; the document found comes with its
    [_id]. *)
Definition Employee_findById (id : string) : M (option (ObjectId * Employee)) :=
  match ObjectId_from id with
  | None => throw (Error (CastErrorMessage id "_id"))
  | Some oid =>
      let* s := getStore in
      ret ((fun e => (oid, e)) <$> employees s !! oid)
  end.

(** [AttendanceRecord.find({ employeeId })], in the collection's order. *)
Definition recordsOf (id : ObjectId) (rs : list AttendanceRecord)
  : list AttendanceRecord :=
  filter (fun r => employeeId r = id) rs.

Definition AttendanceRecord_find (id : ObjectId) : M (list AttendanceRecord) :=
  let* s := getStore in
  ret (recordsOf id (attendanceRecords s)).

Definition set_attendance (e : Employee) (a : Q) (upd : Z) : Employee :=
  {| emp_name := emp_name e; emp_email := emp_email e; emp_age := emp_age e;
     emp_phone := emp_phone e; emp_class := emp_class e;
     emp_subjects := emp_subjects e; attendance := a; emp_role := emp_role e;
     dateOfJoining := dateOfJoining e; lastAttendanceUpdate := Some upd;
     emp_createdAt := emp_createdAt e; emp_updatedAt := emp_updatedAt e |}.

Definition set_updatedAt (e : Employee) (t : Z) : Employee :=
  {| emp_name := emp_name e; emp_email := emp_email e; emp_age := emp_age e;
     emp_phone := emp_phone e; emp_class := emp_class e;
     emp_subjects := emp_subjects e; attendance := attendance e;
     emp_role := emp_role e; dateOfJoining := dateOfJoining e;
     lastAttendanceUpdate := lastAttendanceUpdate e;
     emp_createdAt := emp_createdAt e; emp_updatedAt := t |}.

(** [this.save()] on an employee document: the schema has
    [timestamps: true], so the write also stamps [updatedAt]. *)
Definition Employee_save (id : ObjectId) (this : Employee) : M unit :=
  let* now := newDate in
  let* s := getStore in
  putStore {| employees := <[id := set_updatedAt this now]> (employees s);
              attendanceRecords := attendanceRecords s |}.

(** ** Numbers (IEEE 754 doubles) *)

(** The integer nearest to [m], the even one of two equally near. *)
Definition round_half_even (m : Q) : Z :=
  let num := Qnum m in
  let den := Z.pos (Qden m) in
  let q := num / den in
  match 2 * (num mod den) ?= den with
  | Lt => q
  | Gt => q + 1
  | Eq => if Z.even q then q else q + 1
  end.

(** The [f] with [2^f ≤ x < 2^(f+1)], for a positive [x]. *)
Definition floor_log2 (x : Q) : Z :=
  let c := Z.log2 (Qnum x) - Z.log2 (Z.pos (Qden x)) in
  if Qle_bool (2 ^ c) x then c else c - 1.

(** The double nearest to a positive [x]: a significand of 53 bits, rounded
    to nearest-even, times a power of two. *)
Definition nearest_double (x : Q) : Q :=
  let e := floor_log2 x - 52 in
  (inject_Z (round_half_even (x / 2 ^ e)) * 2 ^ e)%Q.

(** The double an arithmetic operation returns when its exact result is
    [x]. *)
Definition round_double (x : Q) : Q :=
  match Qnum x with
  | Z0 => 0%Q
  | Z.pos _ => Qred (nearest_double x)
  | Z.neg _ => Qred (- nearest_double (- x))
  end.

(** [x / y] and [x * y] on numbers. *)
Definition Number_div (x y : Q) : Q := round_double (x / y).
Definition Number_mul (x y : Q) : Q := round_double (x * y).

(** ** Attendance consistency engine (models/employee.ts) *)

Definition presentDays (records : list AttendanceRecord) : nat :=
  length (filter (fun r => present r = true) records).

(** The value [updateAttendancePercentage] assigns to [this.attendance]:
    [100], or [(presentDays / records.length) * 100]. *)
Definition attendancePercentage (records : list AttendanceRecord) : Q :=
  if (length records =? 0)%nat then 100%Q
  else Number_mul
         (Number_div (inject_Z (Z.of_nat (presentDays records)))
                     (inject_Z (Z.of_nat (length records))))
         100.

Definition updateAttendancePercentage (id : ObjectId) (this : Employee)
  : M unit :=
  let* records := AttendanceRecord_find id in
  let* now := newDate in
  Employee_save id (set_attendance this (attendancePercentage records) now).

Definition updateAttendanceStats (id : string) : M unit :=
  let* employee := Employee_findById id in
  match employee with
  | Some (oid, e) => updateAttendancePercentage oid e
  | None => ret tt
  end.

Arguments updateAttendanceStats : simpl never.

(** ** Attendance records (models/attendanceRecord.ts) *)

(** The object handed to [AttendanceRecord.create]: the resolver's
    [{ ...input, createdBy }], with [employeeId] still the input's string. *)
Record AttendanceDoc := {
  doc_employeeId : string;
  doc_date : JsDate;
  doc_present : bool;
  doc_notes : option string;
  doc_createdBy : ObjectId
}.

(** White space and line terminators of one, two and three bytes: U+0009 to
    U+000D and U+0020; U+00A0; U+1680, U+2000 to U+200A, U+2028, U+2029,
    U+202F, U+205F, U+3000 and U+FEFF. *)
Definition is_space (c : ascii) : bool :=
  let n := nat_of_ascii c in
  (n =? 32)%nat || ((9 <=? n)%nat && (n <=? 13)%nat).

Definition is_space2 (c1 c2 : ascii) : bool :=
  (nat_of_ascii c1 =? 194)%nat && (nat_of_ascii c2 =? 160)%nat.

Definition is_space3 (c1 c2 c3 : ascii) : bool :=
  let n1 := nat_of_ascii c1 in
  let n2 := nat_of_ascii c2 in
  let n3 := nat_of_ascii c3 in
  ((n1 =? 225)%nat && (n2 =? 154)%nat && (n3 =? 128)%nat) ||
  ((n1 =? 226)%nat && (n2 =? 128)%nat &&
   (((128 <=? n3)%nat && (n3 <=? 138)%nat) ||
    (n3 =? 168)%nat || (n3 =? 169)%nat || (n3 =? 175)%nat)) ||
  ((n1 =? 226)%nat && (n2 =? 129)%nat && (n3 =? 159)%nat) ||
  ((n1 =? 227)%nat && (n2 =? 128)%nat && (n3 =? 128)%nat) ||
  ((n1 =? 239)%nat && (n2 =? 187)%nat && (n3 =? 191)%nat).

(** Dropping leading white space; with [backwards], the bytes arrive last
    byte first, as when a string is trimmed at its end. *)
Fixpoint drop_spaces (backwards : bool) (s : list ascii) : list ascii :=
  match s with
  | [] => []
  | c1 :: s1 =>
      if is_space c1 then drop_spaces backwards s1
      else
        match s1 with
        | [] => s
        | c2 :: s2 =>
            if (if backwards then is_space2 c2 c1 else is_space2 c1 c2)
            then drop_spaces backwards s2
            else
              match s2 with
              | [] => s
              | c3 :: s3 =>
                  if (if backwards then is_space3 c3 c2 c1
                      else is_space3 c1 c2 c3)
                  then drop_spaces backwards s3
                  else s
              end
        end
  end.

Definition string_rev (s : string) : string :=
  string_of_list_ascii (rev (list_ascii_of_string s)).

(** [String.prototype.trim], the schema's [trim: true] setter. *)
Definition trim (s : string) : string :=
  string_of_list_ascii
    (rev (drop_spaces true
            (rev (drop_spaces false (list_ascii_of_string s))))).

(** The paths of an attendance document that fail schema validation, which
    the store library runs before every other pre-save hook: [employeeId]
    when the cast to an object id failed, [date] when the [validateDate]
    validator refuses it, [notes] when the trimmed value exceeds
    [maxlength: 500]. A valid document comes back with its [employeeId] cast
    and its date's time value. *)
Definition schema_validate (d : AttendanceDoc) : M (ObjectId * Z) :=
  let* dateOk := validateDate (doc_date d) in
  let notesOk :=
    match doc_notes d with
    | Some n => (js_length (trim n) <=? 500)%nat
    | None => true
    end in
  match ObjectId_from (doc_employeeId d), doc_date d, dateOk && notesOk with
  | Some oid, DateMs t, true => ret (oid, t)
  | oid, _, _ =>
      throw (Error (ValidationErrorMessage
                      (match oid with Some _ => [] | None => ["employeeId"] end ++
                       (if dateOk then [] else ["date"]) ++
                       (if notesOk then [] else ["notes"]))))
  end.

(** [attendanceRecordSchema.pre('save')]. *)
Definition pre_save (id : ObjectId) (d : Z) : M unit :=
  let* employee := Employee_findById id in
  match employee with
  | None => throw (Error "Employee not found")
  | Some _ =>
      let* now := newDate in
      if now <? d then throw (Error "Future dates are not allowed")
      else ret tt
  end.

(** The unique index [{ employeeId: 1, date: 1 }]. *)
Definition duplicate_key (id : ObjectId) (d : Z)
    (rs : list AttendanceRecord) : bool :=
  existsb (fun r => String.eqb (employeeId r) id && (date r =? d)) rs.

(** The driver's error for a write the unique index refuses. *)
Definition E11000 (id : ObjectId) (d : Z) : JsError :=
  Error (DuplicateKeyMessage id d).

(** The insert itself; the index rejects a second record for the pair. *)
Definition insert_record (r : AttendanceRecord) : M unit :=
  let* s := getStore in
  if duplicate_key (employeeId r) (date r) (attendanceRecords s)
  then throw (E11000 (employeeId r) (date r))
  else putStore {| employees := employees s;
                   attendanceRecords := attendanceRecords s ++ [r] |}.

(** [attendanceRecordSchema.post('save')]. *)
Definition post_save (doc : AttendanceRecord) : M unit :=
  updateAttendanceStats (employeeId doc).

(** [AttendanceRecord.create(doc)]: validation, the timestamps of
    [timestamps: true], the pre-save hook, the insert, the post-save hook. *)
Definition AttendanceRecord_create (d : AttendanceDoc) : M AttendanceRecord :=
  let* valid := schema_validate d in
  let* created := newDate in
  let r := {| employeeId := valid.1; date := valid.2;
              present := doc_present d;
              notes := trim <$> doc_notes d;
              createdBy := doc_createdBy d;
              rec_createdAt := created |} in
  exec pre_save (employeeId r) (date r) in
  exec insert_record r in
  exec post_save r in
  ret r.

(** ** The markAttendance mutation (resolvers/index.ts) *)

Definition markAttendance (input : AttendanceInput) (user : option User)
  : M MutationResponse :=
  match user with
  | None => throw (GraphQLError "Not authenticated" (Some "UNAUTHENTICATED"))
  | Some u =>
      try_catch
        (exec lift (checkRole [ADMIN] user) in
         let* validationErrors := validateAttendanceInput input in
         if (0 <? length validationErrors)%nat then
           ret {| success := false; mr_message := None;
                  mr_errors := Some validationErrors |}
         else
           let* createdBy := lift (new_ObjectId (user_id u)) in
           exec AttendanceRecord_create
                  {| doc_employeeId := ai_employeeId input;
                     doc_date := ai_date input;
                     doc_present := ai_present input;
                     doc_notes := ai_notes input;
                     doc_createdBy := createdBy |} in
           exec updateAttendanceStats (ai_employeeId input) in
           ret {| success := true;
                  mr_message := Some "Attendance marked successfully";
                  mr_errors := None |})
        (fun error =>
           ret {| success := false;
                  mr_message := Some "Failed to mark attendance";
                  mr_errors :=
                    Some [ {| ve_field := None;
                              ve_message := err_message error;
                              ve_code := "INTERNAL_SERVER_ERROR" |} ] |})
  end.

(** ** DataLoader (the [dataloader] package), one tick of execution

    What the package does between the first [load] of a tick and the
    dispatch at its end, for a loader built with [cache: true] and a
    [maxBatchSize]. Keys are strings; [cacheKeyFn] is [key.toString()], the
    identity on them. *)

(** The promise [load] hands out: it settles with the value at position
    [p_slot] of what the batch function returns for batch number [p_batch]. *)
Record Promise := {
  p_batch : nat;
  p_slot : nat
}.

(** [dl_batches]: the key lists of the batches created in this tick, oldest
    first; the last one is the loader's current [_batch]. None has been
    dispatched yet. *)
Record DataLoader := {
  dl_maxBatchSize : nat;
  dl_cacheMap : gmap string Promise;
  dl_batches : list (list string)
}.

Definition newDataLoader (maxBatchSize : nat) : DataLoader :=
  {| dl_maxBatchSize := maxBatchSize; dl_cacheMap := ∅; dl_batches := [] |}.

(** [getCurrentBatch]: the existing batch if it has room, else a new one. The
    result is the loader and the number of the current batch. *)
Definition getCurrentBatch (l : DataLoader) : DataLoader * nat :=
  match last (dl_batches l) with
  | Some ks =>
      if (length ks <? dl_maxBatchSize l)%nat
      then (l, pred (length (dl_batches l)))
      else ({| dl_maxBatchSize := dl_maxBatchSize l;
               dl_cacheMap := dl_cacheMap l;
               dl_batches := dl_batches l ++ [[]] |},
            length (dl_batches l))
  | None =>
      ({| dl_maxBatchSize := dl_maxBatchSize l;
          dl_cacheMap := dl_cacheMap l;
          dl_batches := dl_batches l ++ [[]] |},
       length (dl_batches l))
  end.

(** [loader.load(key)]: the batch is fetched first, then a cache hit returns
    the cached promise; otherwise the key joins the batch and its promise is
    cached. *)
Definition load (key : string) (l : DataLoader) : Promise * DataLoader :=
  let '(l1, b) := getCurrentBatch l in
  match dl_cacheMap l1 !! key with
  | Some cachedPromise => (cachedPromise, l1)
  | None =>
      let ks := default [] (dl_batches l1 !! b) in
      let promise := {| p_batch := b; p_slot := length ks |} in
      (promise,
       {| dl_maxBatchSize := dl_maxBatchSize l1;
          dl_cacheMap := <[key := promise]> (dl_cacheMap l1);
          dl_batches := <[b := ks ++ [key]]> (dl_batches l1) |})
  end.

(** The loads of one tick, in request order. *)
Fixpoint loadAll (keys : list string) (l : DataLoader)
  : list Promise * DataLoader :=
  match keys with
  | [] => ([], l)
  | key :: rest =>
      let '(p, l1) := load key l in
      let '(ps, l2) := loadAll rest l1 in
      (p :: ps, l2)
  end.

(** [dispatchBatch] calls the batch function once for every batch that has
    keys; a batch that only saw cache hits calls nothing. *)
Definition dispatched (l : DataLoader) : list (list string) :=
  filter (fun ks => ks ≠ []) (dl_batches l).

(** How a promise settles once its batch has been dispatched with
    [batchLoadFn]: with the value at its slot, or with the batch function's
    error; the package rejects a batch whose values do not number its keys
    (and a promise that [load] did not hand out has no batch to settle
    with). *)
Definition settle {V} (batchLoadFn : list string → Outcome (list V))
    (l : DataLoader) (p : Promise) : Outcome V :=
  match dl_batches l !! p_batch p with
  | None => Throw (Error DataLoaderErrorMessage)
  | Some ks =>
      match batchLoadFn ks with
      | Throw e => Throw e
      | Return values =>
          if (length values =? length ks)%nat then
            match values !! p_slot p with
            | Some v => Return v
            | None => Throw (Error DataLoaderErrorMessage)
            end
          else Throw (Error DataLoaderErrorMessage)
      end
  end.

(** ** The loaders of a request (createDataLoaders) *)

(** LeanEmployee: a stored document as [.lean()] returns it, plus the [id]
    the loader adds. *)
Record LeanEmployee := {
  lean__id : option ObjectId;
  lean_id : option string;
  lean_doc : Employee
}.

(** A query sent to the store. *)
Inductive StoreQuery :=
| FindEmployeesIn (ids : list ObjectId)
| FindAttendanceIn (ids : list ObjectId).

(** [Employee.find({ _id: { $in: ids } }).lean()]. *)
Definition Employee_find_in (ids : list ObjectId) (s : Store)
  : list LeanEmployee :=
  (fun kv => {| lean__id := Some kv.1; lean_id := None; lean_doc := kv.2 |})
    <$> filter (fun kv => kv.1 ∈ ids) (map_to_list (employees s)).

(** [new Map(entries)]: a later entry replaces an earlier one with its key. *)
Definition js_Map {V} (entries : list (string * V)) : gmap string V :=
  foldl (fun m kv => <[kv.1 := kv.2]> m) ∅ entries.

(** The [employees.map(...)] that builds the map's entries and throws on a
    document without [_id]. *)
Fixpoint employee_entries (docs : list LeanEmployee)
  : Outcome (list (string * LeanEmployee)) :=
  match docs with
  | [] => Return []
  | employee :: rest =>
      match lean__id employee with
      | None => Throw (Error "Employee missing _id")
      | Some id =>
          match employee_entries rest with
          | Throw e => Throw e
          | Return entries =>
              Return ((id, {| lean__id := lean__id employee;
                              lean_id := Some id;
                              lean_doc := lean_doc employee |}) :: entries)
          end
      end
  end.

(** [ids.map(id => new Types.ObjectId(id))]: the first string that is no
    object id makes the [map] throw. *)
Fixpoint new_ObjectIds (ids : list string) : Outcome (list ObjectId) :=
  match ids with
  | [] => Return []
  | id :: rest =>
      match new_ObjectId id with
      | Throw e => Throw e
      | Return oid =>
          match new_ObjectIds rest with
          | Throw e => Throw e
          | Return oids => Return (oid :: oids)
          end
      end
  end.

(** The batch function of [employeeLoader]: the queries it sends to the
    store, and what it resolves or rejects with. The map is keyed by the
    documents' [_id.toString()] and read with the requested strings. *)
Definition employeeBatch (s : Store) (ids : list string)
  : list StoreQuery * Outcome (list (option LeanEmployee)) :=
  match new_ObjectIds ids with
  | Throw error => ([], Throw error)
  | Return oids =>
      let employees := Employee_find_in oids s in
      ([FindEmployeesIn oids],
       match employee_entries employees with
       | Throw error => Throw error
       | Return entries =>
           let employeeMap := js_Map entries in
           Return ((fun id => employeeMap !! id) <$> ids)
       end)
  end.

(** [.sort({ date: -1 })] on attendance records: newest first, records of
    one date in the order the store found them. *)
Fixpoint insert_newest_first (r : AttendanceRecord)
    (rs : list AttendanceRecord) : list AttendanceRecord :=
  match rs with
  | [] => [r]
  | r' :: rs' =>
      if date r' <? date r then r :: rs
      else r' :: insert_newest_first r rs'
  end.

Definition sort_newest_first (rs : list AttendanceRecord)
  : list AttendanceRecord :=
  foldr insert_newest_first [] rs.

(** [AttendanceRecord.find({ employeeId: { $in: ids } }).sort({ date: -1 })]. *)
Definition AttendanceRecord_find_in (ids : list ObjectId) (s : Store)
  : list AttendanceRecord :=
  sort_newest_first
    (filter (fun r => employeeId r ∈ ids) (attendanceRecords s)).

(** [records.forEach(record => { if (recordMap.has(id)) ... push(record) })],
    with [id] the record's [employeeId.toString()]. *)
Definition push_record (recordMap : gmap string (list AttendanceRecord))
    (record : AttendanceRecord) : gmap string (list AttendanceRecord) :=
  match recordMap !! employeeId record with
  | Some rs => <[employeeId record := rs ++ [record]]> recordMap
  | None => recordMap
  end.

(** The batch function of [attendanceLoader]. The map is initialised and
    read with the requested strings. *)
Definition attendanceBatch (s : Store) (employeeIds : list string)
  : list StoreQuery * Outcome (list (list AttendanceRecord)) :=
  match new_ObjectIds employeeIds with
  | Throw error => ([], Throw error)
  | Return oids =>
      let records := AttendanceRecord_find_in oids s in
      let recordMap := foldl (fun m id => <[id := []]> m) ∅ employeeIds in
      let recordMap := foldl push_record recordMap records in
      ([FindAttendanceIn oids],
       Return ((fun id => default [] (recordMap !! id)) <$> employeeIds))
  end.

(** [createDataLoaders()]: both loaders cache and batch at most 100 keys. *)
Definition maxBatchSize : nat := 100.

Record DataLoaders := {
  employeeLoader : DataLoader;
  attendanceLoader : DataLoader
}.

Definition createDataLoaders : DataLoaders :=
  {| employeeLoader := newDataLoader maxBatchSize;
     attendanceLoader := newDataLoader maxBatchSize |}.

(** The employee loads of one tick on a loader: what each requester gets, in
    request order, and the queries the store received, batch after batch. *)
Definition employeeLoader_tick (ids : list string) (l : DataLoader) (s : Store)
  : list (Outcome (option LeanEmployee)) * list StoreQuery :=
  let '(promises, l') := loadAll ids l in
  (settle (fun ks => (employeeBatch s ks).2) l' <$> promises,
   concat ((fun ks => (employeeBatch s ks).1) <$> dispatched l')).

Definition attendanceLoader_tick (ids : list string) (l : DataLoader) (s : Store)
  : list (Outcome (list AttendanceRecord)) * list StoreQuery :=
  let '(promises, l') := loadAll ids l in
  (settle (fun ks => (attendanceBatch s ks).2) l' <$> promises,
   concat ((fun ks => (attendanceBatch s ks).1) <$> dispatched l')).

(** ** The employeeAttendance query (resolvers/index.ts) *)

Record EmployeeAttendanceArgs := {
  ea_id : string;
  ea_dateRange : option DateRangeInput
}.

(** The resolver reads [id] only; its result is what the request's
    attendance loader settles with (the promise is returned, not awaited, so
    the [catch] block sees the access error only and rethrows it with its
    message). *)
Definition employeeAttendance (args : EmployeeAttendanceArgs)
    (user : option User) (s : Store) : Outcome (list AttendanceRecord) :=
  match user with
  | None => Throw (GraphQLError "Not authenticated" (Some "UNAUTHENTICATED"))
  | Some _ =>
      if negb (canAccessEmployeeData user (ea_id args))
      then Throw (GraphQLError "Not authorized" None)
      else
        match (attendanceLoader_tick [ea_id args]
                 (attendanceLoader createDataLoaders) s).1 with
        | [result] => result
        | _ => Throw (Error DataLoaderErrorMessage)
        end
  end.

(** ** The employees query (resolvers/index.ts, schema/index.ts) *)

(** The [EmployeeSort] enum of the schema; a resolver receives the value's
    name as a string. *)
Inductive EmployeeSort :=
| NAME_ASC | NAME_DESC
| AGE_ASC | AGE_DESC
| CLASS_ASC | CLASS_DESC
| ATTENDANCE_ASC | ATTENDANCE_DESC
| CREATED_AT_ASC | CREATED_AT_DESC.

Definition EmployeeSort_value (v : EmployeeSort) : string :=
  match v with
  | NAME_ASC => "NAME_ASC" | NAME_DESC => "NAME_DESC"
  | AGE_ASC => "AGE_ASC" | AGE_DESC => "AGE_DESC"
  | CLASS_ASC => "CLASS_ASC" | CLASS_DESC => "CLASS_DESC"
  | ATTENDANCE_ASC => "ATTENDANCE_ASC" | ATTENDANCE_DESC => "ATTENDANCE_DESC"
  | CREATED_AT_ASC => "CREATED_AT_ASC" | CREATED_AT_DESC => "CREATED_AT_DESC"
  end.

(** EmployeeFilter. *)
Record EmployeeFilter := {
  f_name : option string;
  f_class : option string;
  minAge : option Z;
  maxAge : option Z;
  minAttendance : option Q;
  maxAttendance : option Q;
  f_subjects : option (list string);
  f_role : option UserRole;
  f_dateRange : option DateRangeInput
}.

Record EmployeesArgs := {
  a_filter : option EmployeeFilter;
  a_sort : option EmployeeSort;
  a_page : option Z;
  a_pageSize : option Z
}.

(** Values inside a store query or a stored document. *)
Inductive JsValue :=
| VString (s : string)
| VNumber (q : Q)
| VStrings (l : list string)
| VDate (ms : Z).

(** What a query holds under a path: a value to equal, or an object of
    operators such as [{ $gte: 20, $lte: 30 }]. *)
Inductive Condition :=
| Equals (v : JsValue)
| Operators (ops : gmap string JsValue).

Definition UserRole_value (r : UserRole) : string :=
  match r with ADMIN => "ADMIN" | EMPLOYEE => "EMPLOYEE" end.

(** JavaScript truthiness of the filter's values. *)
Definition truthy_string (s : string) : bool := negb (String.eqb s "").
Definition truthy_Z (n : Z) : bool := negb (n =? 0).
Definition truthy_Q (q : Q) : bool := negb (Qeq_bool q 0).
Definition truthy_length {A} (l : list A) : bool := negb (length l =? 0)%nat.

(** [{ ...query[path] }]: the operators already there, or none. *)
Definition spread (c : option Condition) : gmap string JsValue :=
  match c with
  | Some (Operators ops) => ops
  | _ => ∅
  end.

(** [if (x) query[path] = ...]: the assignment happens for a present,
    truthy [x]; what is assigned may read the query built so far. *)
Definition set_when {A} (path : string) (x : option A) (truthy : A → bool)
    (condition : A → gmap string Condition → Condition)
    (query : gmap string Condition) : gmap string Condition :=
  match x with
  | Some a => if truthy a then <[path := condition a query]> query else query
  | None => query
  end.

(** The [query] object the resolver builds from [filter]. *)
Definition employees_query (filter : option EmployeeFilter)
  : gmap string Condition :=
  let query : gmap string Condition := ∅ in
  match filter with
  | None => query
  | Some filter =>
      let query :=
        set_when "name" (f_name filter) truthy_string
          (fun name _ => Operators {[ "$regex" := VString name;
                                      "$options" := VString "i" ]}) query in
      let query :=
        set_when "class" (f_class filter) truthy_string
          (fun class _ => Equals (VString class)) query in
      let query :=
        set_when "age" (minAge filter) truthy_Z
          (fun minAge _ =>
             Operators {[ "$gte" := VNumber (inject_Z minAge) ]}) query in
      let query :=
        set_when "age" (maxAge filter) truthy_Z
          (fun maxAge query =>
             Operators (<["$lte" := VNumber (inject_Z maxAge)]>
                          (spread (query !! "age")))) query in
      let query :=
        set_when "attendance" (minAttendance filter) truthy_Q
          (fun minAttendance _ =>
             Operators {[ "$gte" := VNumber minAttendance ]}) query in
      let query :=
        set_when "attendance" (maxAttendance filter) truthy_Q
          (fun maxAttendance query =>
             Operators (<["$lte" := VNumber maxAttendance]>
                          (spread (query !! "attendance")))) query in
      let query :=
        set_when "subjects" (f_subjects filter) truthy_length
          (fun subjects _ => Operators {[ "$all" := VStrings subjects ]})
          query in
      let query :=
        set_when "role" (f_role filter) (fun _ => true)
          (fun role _ => Equals (VString (UserRole_value role))) query in
      query
  end.

(** [String.prototype.endsWith]. *)
Definition endsWith (s suffix : string) : bool :=
  String.prefix (string_rev suffix) (string_rev s).

(** The [sortObj] the resolver builds from [sort]: one key with direction
    [1] or [-1]. An enum value is a non-empty string, hence truthy. *)
Definition employees_sortObj (sort : option EmployeeSort) : list (string * Z) :=
  match sort with
  | Some v =>
      let sort := EmployeeSort_value v in
      [(toLowerCase sort, if endsWith sort "_DESC" then -1 else 1)]
  | None => [("createdAt", -1)]
  end.

(** ** The store's side of a find *)

(** The paths of an employee document (employeeSchema, with [timestamps]). *)
Definition employee_paths : list (string * (string * Employee → option JsValue)) :=
  [ ("_id", fun d => Some (VString d.1));
    ("name", fun d => Some (VString (emp_name d.2)));
    ("email", fun d => Some (VString (emp_email d.2)));
    ("age", fun d => Some (VNumber (inject_Z (emp_age d.2))));
    ("phone", fun d => VString <$> emp_phone d.2);
    ("class", fun d => Some (VString (emp_class d.2)));
    ("subjects", fun d => Some (VStrings (emp_subjects d.2)));
    ("attendance", fun d => Some (VNumber (attendance d.2)));
    ("role", fun d => Some (VString (UserRole_value (emp_role d.2))));
    ("dateOfJoining", fun d => Some (VDate (dateOfJoining d.2)));
    ("lastAttendanceUpdate", fun d => VDate <$> lastAttendanceUpdate d.2);
    ("createdAt", fun d => Some (VDate (emp_createdAt d.2)));
    ("updatedAt", fun d => Some (VDate (emp_updatedAt d.2))) ].

Fixpoint path_lookup {A} (path : string) (table : list (string * A)) : option A :=
  match table with
  | [] => None
  | (p, a) :: rest => if String.eqb p path then Some a else path_lookup path rest
  end.

(** The value of a document under a path; a path the document lacks has
    none. *)
Definition field_value (path : string) (doc : string * Employee)
  : option JsValue :=
  match path_lookup path employee_paths with
  | Some get => get doc
  | None => None
  end.

Definition value_eqb (a b : JsValue) : bool :=
  match a, b with
  | VString x, VString y => String.eqb x y
  | VNumber x, VNumber y => Qeq_bool x y
  | VStrings x, VStrings y => bool_decide (x = y)
  | VDate x, VDate y => x =? y
  | _, _ => false
  end.

(** The order the store sorts values in: a missing value first, then by
    value within a type. *)
Definition value_compare (a b : option JsValue) : comparison :=
  match a, b with
  | None, None => Eq
  | None, Some _ => Lt
  | Some _, None => Gt
  | Some (VNumber x), Some (VNumber y) => (x ?= y)%Q
  | Some (VString x), Some (VString y) => String.compare x y
  | Some (VDate x), Some (VDate y) => (x ?= y)%Z
  | Some _, Some _ => Eq
  end.

Fixpoint sort_compare (sortObj : list (string * Z)) (d1 d2 : string * Employee)
  : comparison :=
  match sortObj with
  | [] => Eq
  | (path, direction) :: rest =>
      match value_compare (field_value path d1) (field_value path d2) with
      | Eq => sort_compare rest d1 d2
      | c => if direction =? 1 then c else CompOpp c
      end
  end.

Fixpoint sort_insert (sortObj : list (string * Z)) (d : string * Employee)
    (docs : list (string * Employee)) : list (string * Employee) :=
  match docs with
  | [] => [d]
  | d' :: rest =>
      match sort_compare sortObj d' d with
      | Lt => d' :: sort_insert sortObj d rest
      | _ => d :: docs
      end
  end.

(** [.sort(sortObj)]: documents that compare equal keep the order they were
    found in. *)
Definition store_sort (sortObj : list (string * Z))
    (docs : list (string * Employee)) : list (string * Employee) :=
  foldr (sort_insert sortObj) [] docs.

Section Find.
(** The store's regular-expression matcher: pattern, options, subject. *)
Variable regex_test : string → string → string → bool.
(** Whether the store accepts a pattern as a regular expression. *)
Variable regex_compiles : string → bool.

Definition holds_gte (fv : option JsValue) (arg : JsValue) : bool :=
  match fv, arg with
  | Some (VNumber x), VNumber n => Qle_bool n x
  | Some (VDate x), VDate n => n <=? x
  | _, _ => false
  end.

Definition holds_lte (fv : option JsValue) (arg : JsValue) : bool :=
  match fv, arg with
  | Some (VNumber x), VNumber n => Qle_bool x n
  | Some (VDate x), VDate n => x <=? n
  | _, _ => false
  end.

Definition holds_all (fv : option JsValue) (arg : JsValue) : bool :=
  match fv, arg with
  | Some (VStrings have), VStrings wanted =>
      forallb (fun x => bool_decide (x ∈ have)) wanted
  | _, _ => false
  end.

Definition holds_regex (fv : option JsValue) (arg : JsValue)
    (options : option JsValue) : bool :=
  match fv, arg with
  | Some (VString subject), VString pattern =>
      regex_test pattern
        (match options with Some (VString o) => o | _ => "" end) subject
  | _, _ => false
  end.

Definition unless_absent {A} (x : option A) (test : A → bool) : bool :=
  match x with
  | Some a => test a
  | None => true
  end.

(** Whether a document's value satisfies what the query holds under its
    path: equality (membership for an array field), or every operator of
    the object. *)
Definition condition_holds (fv : option JsValue) (c : Condition) : bool :=
  match c with
  | Equals v =>
      match fv, v with
      | Some (VStrings have), VString x => bool_decide (x ∈ have)
      | Some a, _ => value_eqb a v
      | None, _ => false
      end
  | Operators ops =>
      unless_absent (ops !! "$gte") (holds_gte fv) &&
      unless_absent (ops !! "$lte") (holds_lte fv) &&
      unless_absent (ops !! "$all") (holds_all fv) &&
      unless_absent (ops !! "$regex")
        (fun arg => holds_regex fv arg (ops !! "$options"))
  end.

(** A document matches a query when it satisfies the condition under every
    path of the query. *)
Definition matches (query : gmap string Condition) (doc : string * Employee)
  : bool :=
  forallb (fun pc => condition_holds (field_value pc.1 doc) pc.2)
          (map_to_list query).

Definition matching (query : gmap string Condition) (s : Store)
  : list (string * Employee) :=
  filter (fun doc => matches query doc = true) (map_to_list (employees s)).

(** The pattern of a [$regex] the store cannot compile, if the condition
    has one. *)
Definition invalid_regex (c : Condition) : option string :=
  match c with
  | Operators ops =>
      match ops !! "$regex" with
      | Some (VString pattern) =>
          if regex_compiles pattern then None else Some pattern
      | _ => None
      end
  | Equals _ => None
  end.

(** The error the store rejects a query with, if it does. *)
Definition query_error (query : gmap string Condition) : option JsError :=
  match omap (fun pc : string * Condition => invalid_regex pc.2)
             (map_to_list query) with
  | pattern :: _ => Some (Error (RegexErrorMessage pattern))
  | [] => None
  end.

(** [Employee.countDocuments(query)]. *)
Definition countDocuments (query : gmap string Condition) (s : Store)
  : Outcome Z :=
  match query_error query with
  | Some error => Throw error
  | None => Return (Z.of_nat (length (matching query s)))
  end.

(** [.limit(n)]: [0] is no limit, a negative [n] limits to [|n|]. *)
Definition limited {A} (n : Z) (l : list A) : list A :=
  if n =? 0 then l else take (Z.to_nat (Z.abs n)) l.

(** [Employee.find(query).sort(sortObj).skip(skip).limit(limit).lean()];
    the store rejects a negative skip. *)
Definition Employee_find (query : gmap string Condition)
    (sortObj : list (string * Z)) (skip limit : Z) (s : Store)
  : Outcome (list (string * Employee)) :=
  match query_error query with
  | Some error => Throw error
  | None =>
      if skip <? 0 then Throw (Error (SkipErrorMessage skip))
      else Return (limited limit
                     (drop (Z.to_nat skip)
                        (store_sort sortObj (matching query s))))
  end.

(** A JavaScript number that is an integer, an infinity or NaN. *)
Inductive JsInt :=
| Finite (n : Z)
| Infinity
| NaN.

(** [Math.ceil(totalCount / pageSize)] for a count, which is not
    negative. *)
Definition Math_ceil_div (totalCount pageSize : Z) : JsInt :=
  if pageSize =? 0 then (if totalCount =? 0 then NaN else Infinity)
  else Finite (Qceiling (Number_div (inject_Z totalCount)
                                    (inject_Z pageSize))).

(** [page < totalPages]. *)
Definition js_lt (page : Z) (totalPages : JsInt) : bool :=
  match totalPages with
  | Finite n => page <? n
  | Infinity => true
  | NaN => false
  end.

Record PageInfo := {
  hasNextPage : bool;
  hasPreviousPage : bool;
  totalPages : JsInt;
  totalCount : Z;
  currentPage : Z
}.

Record EmployeeQueryResult := {
  edges : list LeanEmployee;
  pageInfo : PageInfo
}.

(** utils/transforms.ts *)
Definition toGraphQLEmployees (employees : list (string * Employee))
  : list LeanEmployee :=
  (fun employee => {| lean__id := Some employee.1;
                      lean_id := Some employee.1;
                      lean_doc := employee.2 |}) <$> employees.

Definition employees_page (args : EmployeesArgs) : Z :=
  default 1 (a_page args).

Definition employees_pageSize (args : EmployeesArgs) : Z :=
  default 10 (a_pageSize args).

(** [const skip = (page - 1) * pageSize]: the product of two integers,
    rounded to a double, which is an integer again. *)
Definition employees_skip (args : EmployeesArgs) : Z :=
  Qfloor (Number_mul (inject_Z (employees_page args - 1))
                     (inject_Z (employees_pageSize args))).

(** The [employees] resolver. An error inside its [try] is rethrown as a
    [GraphQLError] with the same message. *)
Definition employees_resolver (args : EmployeesArgs) (user : option User)
    (s : Store) : Outcome EmployeeQueryResult :=
  match user with
  | None => Throw (GraphQLError "Not authenticated" (Some "UNAUTHENTICATED"))
  | Some _ =>
      match checkRole [ADMIN; EMPLOYEE] user with
      | Throw e => Throw e
      | Return _ =>
          let page := employees_page args in
          let pageSize := employees_pageSize args in
          let skip := employees_skip args in
          let query := employees_query (a_filter args) in
          let sortObj := employees_sortObj (a_sort args) in
          match countDocuments query s with
          | Throw error => Throw (GraphQLError (err_message error) None)
          | Return totalCount =>
              let totalPages := Math_ceil_div totalCount pageSize in
              match Employee_find query sortObj skip pageSize s with
              | Throw error => Throw (GraphQLError (err_message error) None)
              | Return employees =>
                  Return {| edges := toGraphQLEmployees employees;
                            pageInfo :=
                              {| hasNextPage := js_lt page totalPages;
                                 hasPreviousPage := 1 <? page;
                                 totalPages := totalPages;
                                 totalCount := totalCount;
                                 currentPage := page |} |}
              end
          end
      end
  end.
End Find.

(** ** More of the models (models/employee.ts, models/attendanceRecord.ts) *)






(** ** Notions used to state the attendance properties *)

(** A string that is an object id as [toString] prints it: the constructor
    accepts it and gives the id it spells. *)
Definition is_ObjectId (s : string) : Prop := ObjectId_from s = Some s.

Definition is_lower_hex (c : ascii) : bool :=
  let n := nat_of_ascii c in
  ((48 <=? n)%nat && (n <=? 57)%nat) || ((97 <=? n)%nat && (n <=? 102)%nat).

(** The UTF-16 code units of a list of bytes. *)
Fixpoint units (l : list ascii) : nat :=
  match l with
  | [] => 0%nat
  | c :: l' => (utf16_units c + units l')%nat
  end.

(** The store after [updateAttendancePercentage] has saved employee [id],
    loaded as [e], at clock readings [t1] (lastAttendanceUpdate) and [t2]
    (updatedAt). *)
Definition recalculated (s : Store) (id : ObjectId) (e : Employee) (t1 t2 : Z)
  : Store :=
  {| employees :=
       <[id := set_updatedAt
                 (set_attendance e
                    (attendancePercentage (recordsOf id (attendanceRecords s)))
                    t1) t2]> (employees s);
     attendanceRecords := attendanceRecords s |}.

(** The store after the insert of record [r]. *)
Definition appended (s : Store) (r : AttendanceRecord) : Store :=
  {| employees := employees s;
     attendanceRecords := attendanceRecords s ++ [r] |}.

(** The world after one clock read. *)
Definition tick (w : World) : World :=
  {| db := db w; ticks := S (ticks w); wall := wall w |}.

(** The specification's counts over a ledger: the attendance records of an
    employee, and those of them that say present. *)
Fixpoint days_recorded (id : ObjectId) (ledger : list AttendanceRecord) : nat :=
  match ledger with
  | [] => 0%nat
  | r :: rest =>
      ((if String.eqb (employeeId r) id then 1 else 0)
       + days_recorded id rest)%nat
  end.

Fixpoint days_present (id : ObjectId) (ledger : list AttendanceRecord) : nat :=
  match ledger with
  | [] => 0%nat
  | r :: rest =>
      ((if String.eqb (employeeId r) id && present r then 1 else 0)
       + days_present id rest)%nat
  end.

(** The specification's attendance percentage of [P] present days out of
    [N]: the real number [100 × P / N]. *)
Definition exact_percentage (P N : nat) : Q :=
  (100 * inject_Z (Z.of_nat P) / inject_Z (Z.of_nat N))%Q.

(** Floating rounding tolerance: a relative error of at most [2^-51], which
    two roundings to 53 bits stay within. *)
Definition rounding_tolerance : Q := 1 # 2 ^ 51.

Definition within_rounding (stored exact : Q) : Prop :=
  (Qabs (stored - exact) <= exact * rounding_tolerance)%Q.

(** Every employee's stored percentage is the one the engine computes from
    its ledger, and every record belongs to a stored employee. *)
Definition consistent (s : Store) : Prop :=
  (∀ id e, employees s !! id = Some e →
           (attendance e == attendancePercentage
                              (recordsOf id (attendanceRecords s)))%Q) ∧
  (∀ r, r ∈ attendanceRecords s → is_Some (employees s !! employeeId r)).

(** The stores the API can produce, over-approximated on the employee side:
    - [createEmployee] ends in [Employee.create(input)]; the input type has no
      [attendance] field, so the schema default [100] is stored under a fresh
      [_id];
    - [updateEmployee] ends in [findByIdAndUpdate(id, { $set: input })]; the
      input type has no [attendance] field, so the stored percentage is kept;
    - [markAttendance], whatever it returns. *)
Inductive reachable : Store → Prop :=
| reach_empty :
    reachable {| employees := ∅; attendanceRecords := [] |}
| reach_create s id e :
    reachable s →
    is_ObjectId id →
    employees s !! id = None →
    attendance e = 100%Q →
    reachable {| employees := <[id := e]> (employees s);
                 attendanceRecords := attendanceRecords s |}
| reach_update s id e e' :
    reachable s →
    employees s !! id = Some e →
    attendance e' = attendance e →
    reachable {| employees := <[id := e']> (employees s);
                 attendanceRecords := attendanceRecords s |}
| reach_mark w input user o w' :
    reachable (db w) →
    markAttendance input user w = (o, w') →
    reachable (db w').

(** The response of the resolver's [catch] block for a thrown [err]. *)
Definition failed_with (err : JsError) : MutationResponse :=
  {| success := false;
     mr_message := Some "Failed to mark attendance";
     mr_errors := Some [ {| ve_field := None;
                            ve_message := err_message err;
                            ve_code := "INTERNAL_SERVER_ERROR" |} ] |}.

Definition marked_successfully : MutationResponse :=
  {| success := true; mr_message := Some "Attendance marked successfully";
     mr_errors := None |}.

(** The response [updateEmployee] returns when [findByIdAndUpdate] finds no
    employee (resolvers/index.ts, the sibling mutation). *)
Definition employee_not_found : MutationResponse :=
  {| success := false;
     mr_message := Some "Employee not found";
     mr_errors := Some [ {| ve_field := None;
                            ve_message := "Employee not found";
                            ve_code := "NOT_FOUND" |} ] |}.

(** The kinds of the specification's error taxonomy that a mutation reports
    in its [errors] list, and the kind a code of the resolvers names:
    [NOT_FOUND] is written by [updateEmployee], [INTERNAL_SERVER_ERROR] by
    every [catch] block; no code of the API names a conflict. *)
Inductive ErrorKind := NotFound | Conflict | Internal.

Definition kind_of_code (code : string) : option ErrorKind :=
  if String.eqb code "NOT_FOUND" then Some NotFound
  else if String.eqb code "INTERNAL_SERVER_ERROR" then Some Internal
  else None.

(** The codes of the errors a response carries. *)
Definition error_codes (resp : MutationResponse) : list string :=
  ve_code <$> default [] (mr_errors resp).

(** ** Sample data for the concrete instances *)

Definition admin_id : string := "507f1f77bcf86cd799439011".
Definition alice_id : string := "507f191e810c19729de860ea".
Definition nobody_id : string := "507f191e810c19729de860ff".

Definition admin0 : User :=
  {| user_id := admin_id; user_role := ADMIN;
     user_email := "admin@example.com"; user_name := None |}.

(** The caller of the README's token request, whose id is no object id. *)
Definition readme_admin : User :=
  {| user_id := "admin123"; user_role := ADMIN;
     user_email := "admin@example.com"; user_name := Some "Claro Doe" |}.

Definition alice : Employee :=
  {| emp_name := "Alice"; emp_email := "alice@example.com"; emp_age := 30;
     emp_phone := None; emp_class := "10A"; emp_subjects := ["Math"];
     attendance := 100; emp_role := EMPLOYEE; dateOfJoining := 0;
     lastAttendanceUpdate := None; emp_createdAt := 0; emp_updatedAt := 0 |}.

Definition day (d : Z) (p : bool) : AttendanceRecord :=
  {| employeeId := alice_id; date := d; present := p; notes := None;
     createdBy := admin_id; rec_createdAt := d |}.

(** Alice with a given ledger; the clock reads 1000, 1001, ... *)
Definition world_of (ledger : list AttendanceRecord) : World :=
  {| db := {| employees := {[ alice_id := alice ]};
              attendanceRecords := ledger |};
     ticks := 0;
     wall := fun k => 1000 + Z.of_nat k |}.

(** No attendance yet. *)
Definition world0 : World := world_of [].

(** One recorded present day at time 800. *)
Definition world1 : World := world_of [day 800 true].

(** One present and one absent day. *)
Definition world2 : World := world_of [day 700 true; day 800 false].

(** A stale stored percentage: one absent day on the ledger, 100 stored. *)
Definition world_stale : World := world_of [day 800 false].

Definition present_on (d : Z) : AttendanceInput :=
  {| ai_employeeId := alice_id; ai_date := DateMs d; ai_present := true;
     ai_notes := None |}.

Definition absent_on (d : Z) : AttendanceInput :=
  {| ai_employeeId := alice_id; ai_date := DateMs d; ai_present := false;
     ai_notes := None |}.

Definition unknown_employee_past_date : AttendanceInput :=
  {| ai_employeeId := nobody_id; ai_date := DateMs 800; ai_present := true;
     ai_notes := None |}.

(** ** Notions used to state the loader properties *)

(** What the employee loader owes a requester of [id]: the stored document
    with its [id], or the absent marker. *)
Definition emp (s : Store) (id : string) : option LeanEmployee :=
  (fun e => {| lean__id := Some id; lean_id := Some id; lean_doc := e |})
    <$> employees s !! id.

(** The distinct keys of a request sequence, in order of first request. *)
Definition add_key (acc : list string) (key : string) : list string :=
  if decide (key ∈ acc) then acc else acc ++ [key].

Definition distinct_keys (ids : list string) : list string :=
  foldl add_key [] ids.

(** Promise [p] is the one of key [k]: its batch exists and holds [k] at the
    promise's slot. *)
Definition promise_of (l : DataLoader) (p : Promise) (k : string) : Prop :=
  ∃ b, dl_batches l !! p_batch p = Some b ∧ b !! p_slot p = Some k.

(** A loader in the middle of a tick that has requested the distinct keys
    [ks]: the batches, in order, spell [ks]; each is within the size limit
    and all but the last are full; the cache holds exactly the promises of
    the batched keys. *)
Definition batched (l : DataLoader) (ks : list string) : Prop :=
  (1 ≤ dl_maxBatchSize l)%nat ∧
  concat (dl_batches l) = ks ∧
  NoDup ks ∧
  (∀ i b, dl_batches l !! i = Some b →
          (length b ≤ dl_maxBatchSize l)%nat ∧
          (S i < length (dl_batches l) → length b = dl_maxBatchSize l)%nat) ∧
  (∀ k p, dl_cacheMap l !! k = Some p ↔ promise_of l p k).

(** Object ids numbered from 0 to 255. *)
Definition key_of (n : nat) : string :=
  "0000000000000000000000" +:+
  String (hex_digit (n / 16)) (String (hex_digit (n mod 16)) EmptyString).

(** 101 distinct ids. *)
Definition many_keys : list string := key_of <$> seq 0 101.


(** Two employees out of three requested ids. *)
Definition id_A : string := "aaaaaaaaaaaaaaaaaaaaaaaa".
Definition id_B : string := "bbbbbbbbbbbbbbbbbbbbbbbb".
Definition id_C : string := "cccccccccccccccccccccccc".

Definition store_AC : Store :=
  {| employees := {[ id_A := alice; id_C := alice ]};
     attendanceRecords := [] |}.

(** A ledger of three days. *)
Definition store_ledger : Store :=
  {| employees := {[ alice_id := alice ]};
     attendanceRecords := [day 100 true; day 300 false; day 200 true] |}.


(** ** Notions used to state the query properties *)

(** The field and the direction the specification reads off an
    [EmployeeSort] value. *)
Definition specified_sort_field (v : EmployeeSort) : string :=
  match v with
  | NAME_ASC | NAME_DESC => "name"
  | AGE_ASC | AGE_DESC => "age"
  | CLASS_ASC | CLASS_DESC => "class"
  | ATTENDANCE_ASC | ATTENDANCE_DESC => "attendance"
  | CREATED_AT_ASC | CREATED_AT_DESC => "createdAt"
  end.

Definition specified_sort_direction (v : EmployeeSort) : Z :=
  match v with
  | NAME_ASC | AGE_ASC | CLASS_ASC | ATTENDANCE_ASC | CREATED_AT_ASC => 1
  | NAME_DESC | AGE_DESC | CLASS_DESC | ATTENDANCE_DESC | CREATED_AT_DESC => -1
  end.

Fixpoint contains (needle hay : string) : bool :=
  String.prefix needle hay ||
  match hay with
  | EmptyString => false
  | String _ hay' => contains needle hay'
  end.

(** The filter as the specification words it: every supplied field
    constrains the record, all constraints together. *)
Definition specified_filter (filter : EmployeeFilter) (e : Employee) : bool :=
  unless_absent (f_name filter)
    (fun n => contains (toLowerCase n) (toLowerCase (emp_name e))) &&
  unless_absent (f_class filter) (fun c => String.eqb c (emp_class e)) &&
  unless_absent (f_role filter) (fun r => bool_decide (r = emp_role e)) &&
  unless_absent (minAge filter) (fun a => a <=? emp_age e) &&
  unless_absent (maxAge filter) (fun a => emp_age e <=? a) &&
  unless_absent (minAttendance filter) (fun a => Qle_bool a (attendance e)) &&
  unless_absent (maxAttendance filter) (fun a => Qle_bool (attendance e) a) &&
  unless_absent (f_subjects filter)
    (fun l => forallb (fun x => bool_decide (x ∈ emp_subjects e)) l).

Definition no_filter : EmployeeFilter :=
  {| f_name := None; f_class := None; minAge := None; maxAge := None;
     minAttendance := None; maxAttendance := None; f_subjects := None;
     f_role := None; f_dateRange := None |}.

(** [{ maxAttendance: 0 }]. *)
Definition never_attended : EmployeeFilter :=
  {| f_name := None; f_class := None; minAge := None; maxAge := None;
     minAttendance := None; maxAttendance := Some 0%Q; f_subjects := None;
     f_role := None; f_dateRange := None |}.

(** [{ minAge: 20, maxAge: 30 }]. *)
Definition twenties : EmployeeFilter :=
  {| f_name := None; f_class := None; minAge := Some 20; maxAge := Some 30;
     minAttendance := None; maxAttendance := None; f_subjects := None;
     f_role := None; f_dateRange := None |}.

Definition bob : Employee :=
  {| emp_name := "Bob"; emp_email := "bob@example.com"; emp_age := 41;
     emp_phone := None; emp_class := "9B"; emp_subjects := ["Art"];
     attendance := 50; emp_role := EMPLOYEE; dateOfJoining := 0;
     lastAttendanceUpdate := None; emp_createdAt := 5; emp_updatedAt := 5 |}.

(** Twenty-five employees aged 30. *)
Definition store25 : Store :=
  {| employees := list_to_map ((fun n => (key_of n, alice)) <$> seq 0 25);
     attendanceRecords := [] |}.

Definition page2_of_twenties : EmployeesArgs :=
  {| a_filter := Some twenties; a_sort := None; a_page := Some 2;
     a_pageSize := Some 10 |}.

(** A matcher and a compiler to run the samples with; none of them has a
    name filter. *)
Definition any_regex (pattern options subject : string) : bool := true.
Definition any_pattern (pattern : string) : bool := true.

(** The page request [p = s = 2147483647], the largest [Int]. *)
Definition last_page : EmployeesArgs :=
  {| a_filter := None; a_sort := None; a_page := Some 2147483647;
     a_pageSize := Some 2147483647 |}.

(** A query none of whose conditions holds a pattern the store cannot
    compile. *)
Definition accepted (regex_compiles : string → bool)
    (query : gmap string Condition) : Prop :=
  ∀ path c, query !! path = Some c → invalid_regex regex_compiles c = None.




(** ** Notions used to state further properties *)

(** The unique index as a property of the collection: no two records share
    their (employee, date) pair. *)
Definition unique_pairs (s : Store) : Prop :=
  NoDup ((fun r => (employeeId r, date r)) <$> attendanceRecords s).


Definition an_employee : User :=
  {| user_id := alice_id; user_role := EMPLOYEE;
     user_email := "alice@example.com"; user_name := None |}.

(** Alice's id as a client may also spell it. *)
Definition alice_id_upper : string := "507F191E810C19729DE860EA".

(** [{ name: "(" }], a name that is no regular expression. *)
Definition named_paren : EmployeeFilter :=
  {| f_name := Some "("; f_class := None; minAge := None; maxAge := None;
     minAttendance := None; maxAttendance := None; f_subjects := None;
     f_role := None; f_dateRange := None |}.

(** A compiler that refuses the pattern "(". *)
Definition no_paren (pattern : string) : bool :=
  negb (String.eqb pattern "(").


(** A request for page 0 in pages of 10. *)
Definition page_zero : EmployeesArgs :=
  {| a_filter := None; a_sort := None; a_page := Some 0;
     a_pageSize := Some 10 |}.

(** A query all of whose invalid patterns are [n]. *)
Definition rejects_only (regex_compiles : string → bool) (n : string)
    (query : gmap string Condition) : Prop :=
  ∀ path c pattern,
    query !! path = Some c →
    invalid_regex regex_compiles c = Some pattern → pattern = n.

(** * Properties *)

(** ** Strings and object ids *)

Ltac each_ascii c :=
  destruct c as [[] [] [] [] [] [] [] []]; vm_compute; try done.

Lemma is_lower_hex_char (c : ascii) :
  is_lower_hex c = true →
  utf16_units c = 1%nat ∧ is_hex c = true ∧ lower c = c.
Proof. each_ascii c. Qed.

Lemma is_hex_char (c : ascii) :
  is_hex c = true → utf16_units c = 1%nat ∧ is_lower_hex (lower c) = true.
Proof. each_ascii c. Qed.

Lemma ascii_units (c : ascii) :
  (nat_of_ascii c <? 128)%nat = true → utf16_units c = 1%nat.
Proof. unfold utf16_units. by intros ->. Qed.

Lemma hex_digit_char (c : ascii) :
  is_lower_hex (hex_digit (nat_of_ascii c / 16)) = true ∧
  is_lower_hex (hex_digit (nat_of_ascii c mod 16)) = true.
Proof. each_ascii c. Qed.

Lemma all_chars_app (p : ascii → bool) (s1 s2 : string) :
  all_chars p (s1 +:+ s2) = all_chars p s1 && all_chars p s2.
Proof.
  induction s1 as [|c s1 IH]; [done|].
  change (String c s1 +:+ s2) with (String c (s1 +:+ s2)).
  cbn [all_chars]. rewrite IH. by destruct (p c).
Qed.

Lemma length_app_string (s1 s2 : string) :
  String.length (s1 +:+ s2) = (String.length s1 + String.length s2)%nat.
Proof.
  induction s1 as [|c s1 IH]; [done|].
  change (String c s1 +:+ s2) with (String c (s1 +:+ s2)).
  cbn [String.length]. by rewrite IH.
Qed.

Lemma lower_hex_string (s : string) :
  all_chars is_lower_hex s = true →
  js_length s = String.length s ∧ all_chars is_hex s = true ∧
  toLowerCase s = s.
Proof.
  induction s as [|c s IH]; [done|]. simpl.
  intros [Hc Hs]%andb_true_iff.
  destruct (is_lower_hex_char c Hc) as (-> & -> & ->).
  destruct (IH Hs) as (-> & -> & ->). done.
Qed.

Lemma hex_string (s : string) :
  all_chars is_hex s = true →
  js_length s = String.length s ∧
  all_chars is_lower_hex (toLowerCase s) = true ∧
  String.length (toLowerCase s) = String.length s.
Proof.
  induction s as [|c s IH]; [done|]. simpl.
  intros [Hc Hs]%andb_true_iff.
  destruct (is_hex_char c Hc) as (-> & ->).
  destruct (IH Hs) as (-> & -> & ->). done.
Qed.

Lemma toHexString_string (bytes : string) :
  String.length (toHexString bytes) = (2 * String.length bytes)%nat ∧
  all_chars is_lower_hex (toHexString bytes) = true.
Proof.
  induction bytes as [|c s [IHlen IHhex]]; [done|].
  cbn [toHexString String.length all_chars].
  destruct (hex_digit_char c) as [-> ->]. rewrite IHlen, IHhex.
  split; [lia|done].
Qed.

(** What the constructor builds is 24 lower-case hexadecimal digits. *)
Lemma ObjectId_from_digits (s : string) (id : ObjectId) :
  ObjectId_from s = Some id →
  String.length id = 24%nat ∧ all_chars is_lower_hex id = true.
Proof.
  unfold ObjectId_from.
  destruct (js_length s =? 12)%nat.
  - destruct (String.length s =? 12)%nat eqn:Hlen; [|done].
    apply Nat.eqb_eq in Hlen. intros [= <-].
    destruct (toHexString_string s) as [-> ->]. by rewrite Hlen.
  - destruct (js_length s =? 24)%nat eqn:Hlen; [|done].
    destruct (all_chars is_hex s) eqn:Hhex; [|done].
    apply Nat.eqb_eq in Hlen. simpl. intros [= <-].
    destruct (hex_string s Hhex) as (Hjs & -> & ->). by rewrite <- Hjs.
Qed.

Lemma digits_is_ObjectId (id : string) :
  String.length id = 24%nat → all_chars is_lower_hex id = true →
  is_ObjectId id.
Proof.
  intros Hlen Hhex. unfold is_ObjectId, ObjectId_from.
  destruct (lower_hex_string id Hhex) as (-> & -> & ->).
  by rewrite Hlen.
Qed.

(** An id the constructor has built is a string the constructor accepts,
    and stands for itself. *)
Lemma ObjectId_from_is_ObjectId (s : string) (id : ObjectId) :
  ObjectId_from s = Some id → is_ObjectId id.
Proof.
  intros [Hlen Hhex]%ObjectId_from_digits. by apply digits_is_ObjectId.
Qed.

Lemma new_ObjectId_is_ObjectId (id : string) :
  is_ObjectId id → new_ObjectId id = Return id.
Proof. unfold new_ObjectId. by intros ->. Qed.

(** ** Trimming shortens *)

Lemma js_length_units (s : string) :
  js_length s = units (list_ascii_of_string s).
Proof. induction s as [|c s IH]; simpl; [done|]. by rewrite IH. Qed.

Lemma units_string_of_list_ascii (l : list ascii) :
  js_length (string_of_list_ascii l) = units l.
Proof. induction l as [|c l IH]; simpl; [done|]. by rewrite IH. Qed.

Lemma units_app (l1 l2 : list ascii) :
  units (l1 ++ l2) = (units l1 + units l2)%nat.
Proof. induction l1 as [|c l1 IH]; simpl; [done|]. rewrite IH. lia. Qed.

Lemma units_rev (l : list ascii) : units (rev l) = units l.
Proof.
  induction l as [|c l IH]; simpl; [done|].
  rewrite units_app, IH. simpl. lia.
Qed.

Lemma drop_spaces_cons (backwards : bool) (c1 : ascii) (s1 : list ascii) :
  drop_spaces backwards (c1 :: s1) =
  if is_space c1 then drop_spaces backwards s1
  else
    match s1 with
    | [] => c1 :: s1
    | c2 :: s2 =>
        if (if backwards then is_space2 c2 c1 else is_space2 c1 c2)
        then drop_spaces backwards s2
        else
          match s2 with
          | [] => c1 :: s1
          | c3 :: s3 =>
              if (if backwards then is_space3 c3 c2 c1
                  else is_space3 c1 c2 c3)
              then drop_spaces backwards s3
              else c1 :: s1
          end
    end.
Proof. reflexivity. Qed.

Lemma drop_spaces_units (backwards : bool) (l : list ascii) :
  (units (drop_spaces backwards l) ≤ units l)%nat.
Proof.
  remember (length l) as n eqn:Hn.
  revert l Hn. induction n as [n IH] using lt_wf_ind. intros l ->.
  destruct l as [|c1 s1]; [done|]. rewrite drop_spaces_cons.
  assert (Hsub : ∀ s, (length s < length (c1 :: s1))%nat →
                      (units s ≤ units (c1 :: s1))%nat →
                      (units (drop_spaces backwards s) ≤ units (c1 :: s1))%nat).
  { intros s Hlen Hs. etransitivity; [|exact Hs]. by eapply IH. }
  destruct (is_space c1).
  { apply Hsub; simpl; lia. }
  destruct s1 as [|c2 s2]; [done|].
  destruct (if backwards then is_space2 c2 c1 else is_space2 c1 c2).
  { apply Hsub; simpl; lia. }
  destruct s2 as [|c3 s3]; [done|].
  destruct (if backwards then is_space3 c3 c2 c1 else is_space3 c1 c2 c3);
    [|done].
  apply Hsub; simpl; lia.
Qed.

Lemma trim_length (s : string) : (js_length (trim s) ≤ js_length s)%nat.
Proof.
  unfold trim. rewrite units_string_of_list_ascii, units_rev, js_length_units.
  etransitivity; [apply drop_spaces_units|]. rewrite units_rev.
  apply drop_spaces_units.
Qed.

(** ** Rounding to a double *)

Lemma round_half_even_spec (m : Q) :
  (m - (1 # 2) <= inject_Z (round_half_even m) <= m + (1 # 2))%Q.
Proof.
  destruct m as [num den]. unfold round_half_even. cbn [Qnum Qden].
  pose proof (Z.div_mod num (Z.pos den) ltac:(lia)) as Hdm.
  pose proof (Z.mod_pos_bound num (Z.pos den) ltac:(lia)) as Hmod.
  set (q := num / Z.pos den) in *. set (r := num mod Z.pos den) in *.
  destruct (Z.compare_spec (2 * r) (Z.pos den)) as [Hc|Hc|Hc];
    [destruct (Z.even q)|..];
    unfold Qle, Qminus, Qplus, Qopp, inject_Z; cbn [Qnum Qden];
    rewrite ?Pos2Z.inj_mul; split; nia.
Qed.

Lemma round_half_even_exact (m : Q) (j : Z) :
  (m == inject_Z j)%Q → round_half_even m = j.
Proof.
  destruct m as [num den]. unfold Qeq, round_half_even.
  cbn [Qnum Qden inject_Z].
  intros H. assert (num = j * Z.pos den) as -> by lia.
  rewrite Z.div_mul, Z.mod_mul by lia. simpl. done.
Qed.

Lemma floor_log2_le (x : Q) : (0 < x)%Q → (2 ^ floor_log2 x <= x)%Q.
Proof.
  intros Hx. unfold floor_log2.
  destruct (Qle_bool _ x) eqn:Hle; [by apply Qle_bool_iff|]. clear Hle.
  destruct x as [a b]. cbn [Qnum Qden].
  assert (Ha : 0 < a). { unfold Qlt in Hx. simpl in Hx. lia. }
  destruct (Z.log2_spec a Ha) as [Ha1 _].
  destruct (Z.log2_spec (Z.pos b) ltac:(lia)) as [_ Hb2].
  pose proof (Z.log2_nonneg a) as Hla.
  pose proof (Z.log2_nonneg (Z.pos b)) as Hlb.
  set (la := Z.log2 a) in *. set (lb := Z.log2 (Z.pos b)) in *.
  replace (la - lb - 1) with (la - (lb + 1)) by lia.
  rewrite Qpower_minus by done.
  change 2%Q with (inject_Z 2). rewrite <- !Zpower_Qpower by lia.
  rewrite (Qmake_Qdiv a b).
  assert (H1 : (inject_Z (2 ^ la) <= inject_Z a)%Q) by (rewrite <- Zle_Qle; lia).
  assert (H2 : (inject_Z (Z.pos b) <= inject_Z (2 ^ (lb + 1)))%Q)
    by (rewrite <- Zle_Qle; lia).
  assert (H3 : (0 < inject_Z (Z.pos b))%Q) by (rewrite <- (Zlt_Qlt 0); lia).
  assert (H4 : (0 < inject_Z (2 ^ la))%Q) by (rewrite <- (Zlt_Qlt 0); lia).
  apply Qle_shift_div_l; [done|].
  unfold Qdiv. rewrite <- Qmult_assoc, (Qmult_comm (/ _)), Qmult_assoc.
  apply Qle_shift_div_r; [lra|]. nra.
Qed.

Lemma two_power_pos (e : Z) : (0 < 2 ^ e)%Q.
Proof. by apply Qpower_0_lt. Qed.

Lemma nearest_double_error (x : Q) :
  (0 < x)%Q →
  (x - x * (1 # 2 ^ 53) <= nearest_double x <= x + x * (1 # 2 ^ 53))%Q.
Proof.
  intros Hx. unfold nearest_double.
  pose proof (floor_log2_le x Hx) as Hlog.
  set (e := floor_log2 x - 52).
  replace (floor_log2 x) with (e + 52) in Hlog by lia.
  rewrite Qpower_plus in Hlog by done.
  pose proof (two_power_pos e) as Ht.
  pose proof (round_half_even_spec (x / 2 ^ e)) as Hn.
  set (n := inject_Z (round_half_even (x / 2 ^ e))) in *.
  assert (Hm : (x == (x / 2 ^ e) * 2 ^ e)%Q) by (field; lra).
  set (m := (x / 2 ^ e)%Q) in *. set (t := (2 ^ e)%Q) in *.
  change (2 ^ 52)%Q with (4503599627370496%Q) in Hlog.
  change (1 # 2 ^ 53)%Q with (1 # 9007199254740992)%Q.
  split; nra.
Qed.

(** Rounding a positive number moves it by at most [2^-53] of itself. *)
Lemma round_double_error (x : Q) :
  (0 < x)%Q →
  (x - x * (1 # 2 ^ 53) <= round_double x <= x + x * (1 # 2 ^ 53))%Q.
Proof.
  intros Hx. unfold round_double.
  destruct (Qnum x) eqn:Hnum.
  - unfold Qlt in Hx. simpl in Hx. lia.
  - rewrite Qred_correct. by apply nearest_double_error.
  - unfold Qlt in Hx. simpl in Hx. lia.
Qed.

Lemma nearest_double_exact (x : Q) (k : Z) :
  (x == inject_Z k)%Q → 0 < k < 2 ^ 53 →
  (nearest_double x == inject_Z k)%Q.
Proof.
  intros Hk Hrange.
  assert (Hx : (0 < x)%Q).
  { rewrite Hk. rewrite <- (Zlt_Qlt 0). lia. }
  unfold nearest_double.
  pose proof (floor_log2_le x Hx) as Hlog.
  set (f := floor_log2 x) in *.
  assert (Hf : f < 53).
  { apply (Qpower_lt_compat_l_inv 2); [|done].
    eapply Qle_lt_trans; [exact Hlog|]. rewrite Hk.
    change 2%Q with (inject_Z 2). rewrite <- Zpower_Qpower by lia.
    rewrite <- Zlt_Qlt. lia. }
  assert (Hm : (x / 2 ^ (f - 52) == inject_Z (k * 2 ^ (52 - f)))%Q).
  { rewrite Hk, inject_Z_mult, Zpower_Qpower by lia.
    replace (f - 52) with (- (52 - f)) by lia. rewrite Qpower_opp.
    pose proof (two_power_pos (52 - f)). change (inject_Z 2) with 2%Q.
    field. lra. }
  rewrite (round_half_even_exact _ _ Hm).
  rewrite inject_Z_mult, Zpower_Qpower by lia.
  replace (f - 52) with (- (52 - f)) by lia. rewrite Qpower_opp.
  pose proof (two_power_pos (52 - f)). change (inject_Z 2) with 2%Q.
  field. lra.
Qed.

(** A natural number below [2^53] is a double. *)
Lemma round_double_exact (x : Q) (k : Z) :
  (x == inject_Z k)%Q → 0 ≤ k < 2 ^ 53 →
  (round_double x == inject_Z k)%Q.
Proof.
  intros Hk Hrange. unfold round_double.
  assert (Hsign : Qnum x = k * Z.pos (Qden x)).
  { unfold Qeq in Hk. simpl in Hk. lia. }
  destruct (Qnum x) eqn:Hnum.
  - assert (k = 0) as -> by nia. reflexivity.
  - rewrite Qred_correct. apply nearest_double_exact; [done|]. nia.
  - nia.
Qed.

Lemma round_double_Z (n : Z) :
  0 ≤ n ≤ 2 ^ 53 → Qfloor (round_double (inject_Z n)) = n.
Proof.
  intros Hn. destruct (decide (n = 2 ^ 53)) as [->|Hne].
  - vm_compute. reflexivity.
  - rewrite (Qfloor_comp _ (inject_Z n)); [apply Qfloor_Z|].
    apply round_double_exact; [reflexivity|lia].
Qed.

(** [Math.ceil] of the rounded quotient of a count below [2^53] is the
    ceiling of the exact quotient. *)
Lemma Qceiling_round_double_div (a b : Z) :
  0 ≤ a < 2 ^ 53 → 0 < b →
  Qceiling (round_double (inject_Z a / inject_Z b)) =
  Qceiling (inject_Z a / inject_Z b).
Proof.
  intros Ha Hb.
  set (x := (inject_Z a / inject_Z b)%Q).
  set (c := Qceiling x).
  assert (Hbq : (0 < inject_Z b)%Q) by (rewrite <- (Zlt_Qlt 0); lia).
  destruct (decide (a = b * c)) as [Hint|Hfrac].
  - assert (Hx : (x == inject_Z c)%Q).
    { unfold x. rewrite Hint, inject_Z_mult. field. lra. }
    assert (0 ≤ c < 2 ^ 53) by nia.
    rewrite (Qceiling_comp _ (inject_Z c)); [apply Qceiling_Z|].
    by apply round_double_exact.
  - pose proof (Qle_ceiling x) as Hup. pose proof (Qceiling_lt x) as Hlow.
    fold c in Hup, Hlow.
    assert (Hxb : (x * inject_Z b == inject_Z a)%Q) by (unfold x; field; lra).
    assert (Hbounds : b * (c - 1) < a < b * c).
    { assert (H1 : (inject_Z (c - 1) * inject_Z b < inject_Z a)%Q) by nra.
      assert (H2 : (inject_Z a <= inject_Z c * inject_Z b)%Q) by nra.
      rewrite <- inject_Z_mult, <- Zlt_Qlt in H1.
      rewrite <- inject_Z_mult, <- Zle_Qle in H2. lia. }
    assert (Hapos : (0 < x)%Q).
    { assert (0 < a) by (destruct (Z.le_gt_cases c 0); nia).
      assert (0 < inject_Z a)%Q by (rewrite <- (Zlt_Qlt 0); lia).
      nra. }
    pose proof (round_double_error x Hapos) as Herr.
    set (r := round_double x) in *.
    change (1 # 2 ^ 53)%Q with (1 # 9007199254740992)%Q in Herr.
    assert (Ha1 : (inject_Z a + 1 <= inject_Z b * inject_Z c)%Q).
    { rewrite <- inject_Z_mult. change 1%Q with (inject_Z 1).
      rewrite <- inject_Z_plus, <- Zle_Qle. lia. }
    assert (Ha2 : (inject_Z b * inject_Z (c - 1) + 1 <= inject_Z a)%Q).
    { rewrite <- inject_Z_mult. change 1%Q with (inject_Z 1).
      rewrite <- inject_Z_plus, <- Zle_Qle. lia. }
    assert (Ha3 : (inject_Z a < 9007199254740992)%Q).
    { change 9007199254740992%Q with (inject_Z (2 ^ 53)).
      rewrite <- Zlt_Qlt. lia. }
    assert (Hr1 : (r <= inject_Z c)%Q) by nra.
    assert (Hr2 : (inject_Z (c - 1) < r)%Q) by nra.
    apply Qceiling_resp_le in Hr1. rewrite Qceiling_Z in Hr1.
    pose proof (Qle_ceiling r) as Hr3.
    assert (inject_Z (c - 1) < inject_Z (Qceiling r))%Q as Hr4 by lra.
    rewrite <- Zlt_Qlt in Hr4. lia.
Qed.

(** ** The percentage the engine computes *)

Lemma recordsOf_days_recorded (id : ObjectId) (ledger : list AttendanceRecord) :
  length (recordsOf id ledger) = days_recorded id ledger.
Proof.
  unfold recordsOf. induction ledger as [|r rs IH]; [done|].
  rewrite filter_cons. cbn [days_recorded].
  destruct (String.eqb_spec (employeeId r) id) as [Heq|Hne].
  - rewrite decide_True by done. simpl. by rewrite IH.
  - rewrite decide_False by done. by rewrite IH.
Qed.

Lemma recordsOf_days_present (id : ObjectId) (ledger : list AttendanceRecord) :
  presentDays (recordsOf id ledger) = days_present id ledger.
Proof.
  unfold presentDays, recordsOf. induction ledger as [|r rs IH]; [done|].
  rewrite filter_cons. cbn [days_present].
  destruct (String.eqb_spec (employeeId r) id) as [Heq|Hne].
  - rewrite decide_True by done. rewrite filter_cons.
    destruct (present r); case_decide; try done; simpl; by rewrite IH.
  - rewrite decide_False by done. by rewrite IH.
Qed.

Lemma days_present_le (id : ObjectId) (ledger : list AttendanceRecord) :
  (days_present id ledger ≤ days_recorded id ledger)%nat.
Proof.
  induction ledger as [|r rs IH]; simpl; [done|].
  destruct (String.eqb _ _), (present r); simpl; lia.
Qed.

(** [(P / N) * 100] in doubles, against the real [100 × P / N]: within the
    tolerance, and exact at both ends of the scale. *)
Lemma percentage_within (P N : nat) :
  (0 < N)%nat → (P ≤ N)%nat →
  let stored := Number_mul (Number_div (inject_Z (Z.of_nat P))
                                       (inject_Z (Z.of_nat N))) 100 in
  within_rounding stored (exact_percentage P N) ∧
  (P = 0%nat → (stored == 0)%Q) ∧
  (P = N → (stored == 100)%Q).
Proof.
  intros HN HP. unfold Number_mul, Number_div.
  set (p := inject_Z (Z.of_nat P)). set (n := inject_Z (Z.of_nat N)).
  assert (Hn : (0 < n)%Q) by (unfold n; rewrite <- (Zlt_Qlt 0); lia).
  assert (Hp : (0 <= p)%Q) by (unfold p; rewrite <- (Zle_Qle 0); lia).
  assert (Hexact : (exact_percentage P N == 100 * (p / n))%Q).
  { unfold exact_percentage. fold p n. field. lra. }
  set (x1 := (p / n)%Q) in *.
  assert (Hzero : P = 0%nat → (round_double (round_double x1 * 100) == 0)%Q).
  { intros ->. apply (round_double_exact _ 0); [|lia].
    rewrite (round_double_exact x1 0); [reflexivity| |lia].
    unfold x1, p. simpl. field. lra. }
  assert (Hfull : P = N → (round_double (round_double x1 * 100) == 100)%Q).
  { intros ->. apply (round_double_exact _ 100); [|lia].
    rewrite (round_double_exact x1 1); [reflexivity| |lia].
    unfold x1, p. fold n. field. lra. }
  split; [|done].
  unfold within_rounding, rounding_tolerance. rewrite Hexact.
  apply Qabs_Qle_condition.
  destruct (decide (P = 0%nat)) as [HP0|HP0].
  { rewrite (Hzero HP0).
    assert (x1 == 0)%Q as -> by (unfold x1, p; rewrite HP0; simpl; field; lra).
    split; lra. }
  assert (Hx1 : (0 < x1)%Q).
  { assert (0 < p)%Q by (unfold p; rewrite <- (Zlt_Qlt 0); lia).
    unfold x1. apply Qlt_shift_div_l; lra. }
  pose proof (round_double_error x1 Hx1) as Hr1.
  set (r1 := round_double x1) in *.
  change (1 # 2 ^ 53)%Q with (1 # 9007199254740992)%Q in Hr1.
  assert (Hx2 : (0 < r1 * 100)%Q) by lra.
  pose proof (round_double_error _ Hx2) as Hr2.
  set (r2 := round_double (r1 * 100)) in *.
  change (1 # 2 ^ 53)%Q with (1 # 9007199254740992)%Q in Hr2.
  change (1 # 2 ^ 51)%Q with (1 # 2251799813685248)%Q.
  split; lra.
Qed.

(** ** Running the engine *)

Lemma Employee_findById_run (id : string) (oid : ObjectId) (w : World) :
  ObjectId_from id = Some oid →
  Employee_findById id w =
  (Return ((fun e => (oid, e)) <$> employees (db w) !! oid), w).
Proof. intros Hid. unfold Employee_findById. by rewrite Hid. Qed.

Lemma updateAttendanceStats_run (id : string) (oid : ObjectId) (w : World) :
  ObjectId_from id = Some oid →
  updateAttendanceStats id w =
  match employees (db w) !! oid with
  | Some e =>
      (Return tt,
       {| db := recalculated (db w) oid e (wall w (ticks w))
                  (wall w (S (ticks w)));
          ticks := S (S (ticks w)); wall := wall w |})
  | None => (Return tt, w)
  end.
Proof.
  intros Hid. unfold updateAttendanceStats, bind.
  rewrite (Employee_findById_run _ _ _ Hid).
  destruct (employees (db w) !! oid) as [e|]; reflexivity.
Qed.

Lemma recalculated_lookup (s : Store) (id : ObjectId) (e : Employee) t1 t2 :
  employees (recalculated s id e t1 t2) !! id =
  Some (set_updatedAt
          (set_attendance e
             (attendancePercentage (recordsOf id (attendanceRecords s))) t1) t2).
Proof. unfold recalculated. simpl. apply lookup_insert_eq. Qed.

Lemma recalculated_lookup_ne (s : Store) (id id' : ObjectId) (e : Employee) t1 t2 :
  id ≠ id' →
  employees (recalculated s id e t1 t2) !! id' = employees s !! id'.
Proof. intros Hne. unfold recalculated. simpl. by apply lookup_insert_ne. Qed.

Lemma recalculated_records (s : Store) (id : ObjectId) (e : Employee) t1 t2 :
  attendanceRecords (recalculated s id e t1 t2) = attendanceRecords s.
Proof. reflexivity. Qed.

Lemma validateDate_run (d : JsDate) (w : World) :
  ∃ b w1, validateDate d w = (Return b, w1) ∧ db w1 = db w ∧ wall w1 = wall w ∧
          (b = true → ∃ t, d = DateMs t ∧ t ≤ wall w (ticks w)).
Proof.
  destruct d as [t|]; simpl.
  - eexists _, _. split; [reflexivity|]. repeat split; try done.
    intros Hb. exists t. split; [done|]. by apply Z.leb_le.
  - eexists _, _. split; [reflexivity|]. repeat split; done.
Qed.

Lemma schema_validate_inv (d : AttendanceDoc) (w : World) o w1 :
  schema_validate d w = (o, w1) →
  db w1 = db w ∧ wall w1 = wall w ∧
  (∀ oid t, o = Return (oid, t) →
            ObjectId_from (doc_employeeId d) = Some oid ∧
            doc_date d = DateMs t).
Proof.
  unfold schema_validate, bind.
  destruct (validateDate_run (doc_date d) w) as (b & w2 & -> & Hdb & Hwall & Hb).
  repeat case_match; intros [= <- <-]; (split; [done|]); (split; [done|]);
    intros oid' t' [=]; by subst.
Qed.

(** [AttendanceRecord.create] either throws and leaves the store alone, or
    inserts one record of an existing employee and recalculates. *)
Lemma AttendanceRecord_create_inv (d : AttendanceDoc) (w : World) o w' :
  AttendanceRecord_create d w = (o, w') →
  (db w' = db w ∧ ∃ err, o = Throw err) ∨
  (∃ oid t e r t1 t2,
      ObjectId_from (doc_employeeId d) = Some oid ∧
      doc_date d = DateMs t ∧
      employees (db w) !! oid = Some e ∧
      duplicate_key oid t (attendanceRecords (db w)) = false ∧
      employeeId r = oid ∧ date r = t ∧
      present r = doc_present d ∧
      o = Return r ∧
      db w' = recalculated (appended (db w) r) oid e t1 t2).
Proof.
  unfold AttendanceRecord_create, bind.
  destruct (schema_validate d w) as [[[oid t]|err] w1] eqn:Hv;
    apply schema_validate_inv in Hv as (Hdb1 & Hwall1 & Hd).
  2:{ intros [= <- <-]. left. eauto. }
  destruct (Hd oid t eq_refl) as [Hoid Ht].
  pose proof (ObjectId_from_is_ObjectId _ _ Hoid) as Hcanon.
  unfold newDate at 1. cbn [fst snd employeeId date].
  unfold pre_save, bind.
  rewrite (Employee_findById_run oid oid) by done. cbn [db].
  rewrite Hdb1.
  destruct (employees (db w) !! oid) as [e|] eqn:He; cbn.
  2:{ intros [= <- <-]. left. eauto. }
  destruct (_ <? t) eqn:Hfut; cbn.
  { intros [= <- <-]. left. eauto. }
  unfold insert_record, bind, getStore, putStore, throw. cbn.
  rewrite ?Hdb1.
  destruct (duplicate_key _ _ _) eqn:Hdup.
  { intros [= <- <-]. left. eauto. }
  unfold post_save. cbn [employeeId].
  rewrite (updateAttendanceStats_run oid oid) by done. cbn. rewrite He.
  intros [= <- <-]. right.
  eexists oid, t, e, _, _, _. repeat split; try done.
Qed.

Lemma validateAttendanceInput_run (input : AttendanceInput) (w : World) :
  ∃ errs w1, validateAttendanceInput input w = (Return errs, w1) ∧
             db w1 = db w ∧ wall w1 = wall w.
Proof.
  unfold validateAttendanceInput, bind.
  destruct (validateDate_run (ai_date input) w) as (b & w2 & -> & Hdb & Hwall & _).
  eexists _, _. split; [reflexivity|]. done.
Qed.

Lemma checkRole_run roles (u : User) (w : World) :
  lift (checkRole roles (Some u)) w =
  if bool_decide (user_role u ∈ roles) then (Return true, w)
  else (Throw (createAuthError "Not authorized" "FORBIDDEN"), w).
Proof. unfold lift, checkRole. by case_bool_decide. Qed.

(** [markAttendance] either leaves the store alone and does not report
    success, or reports success after inserting one record of an existing
    employee and recalculating that employee twice (post-save hook, then the
    resolver's own call). *)
Lemma markAttendance_inv input user w o w' :
  markAttendance input user w = (o, w') →
  (db w' = db w ∧ ∀ resp, o = Return resp → success resp = false) ∨
  (∃ oid t e e1 r t1 t2 t3 t4,
      ObjectId_from (ai_employeeId input) = Some oid ∧
      ai_date input = DateMs t ∧
      employees (db w) !! oid = Some e ∧
      duplicate_key oid t (attendanceRecords (db w)) = false ∧
      employeeId r = oid ∧ date r = t ∧
      present r = ai_present input ∧
      o = Return marked_successfully ∧
      db w' = recalculated (recalculated (appended (db w) r) oid e t1 t2)
                oid e1 t3 t4).
Proof.
  unfold markAttendance. destruct user as [u|].
  2:{ intros [= <- <-]. left. split; [done|]. intros; discriminate. }
  unfold try_catch, bind. rewrite checkRole_run.
  case_bool_decide.
  2:{ intros [= <- <-]. left. split; [done|]. by intros ? [= <-]. }
  destruct (validateAttendanceInput_run input w) as (errs & w1 & -> & Hdb1 & _).
  destruct (0 <? length errs)%nat.
  { intros [= <- <-]. left. split; [done|]. by intros ? [= <-]. }
  unfold lift, new_ObjectId.
  destruct (ObjectId_from (user_id u)) as [creator|].
  2:{ intros [= <- <-]. left. split; [done|]. by intros ? [= <-]. }
  destruct (AttendanceRecord_create _ w1) as [[r|err] w2] eqn:Hc;
    apply AttendanceRecord_create_inv in Hc
      as [[Hdb2 [err' ?]]|(oid & t & e & r' & t1 & t2 & Hoid & Hd & He & Hdup & ? & ? & ? & ? & Hdb2)];
    simplify_eq/=.
  - rewrite (updateAttendanceStats_run _ (employeeId r')) by done.
    rewrite Hdb2, recalculated_lookup.
    intros [= <- <-]. right. rewrite Hdb1 in *.
    eexists _, _, e, _, r', _, _, _, _. repeat split; try done.
  - intros [= <- <-]. left. split; [congruence|]. by intros ? [= <-].
Qed.

Lemma recordsOf_app (id : ObjectId) (rs1 rs2 : list AttendanceRecord) :
  recordsOf id (rs1 ++ rs2) = recordsOf id rs1 ++ recordsOf id rs2.
Proof. unfold recordsOf. apply filter_app. Qed.

Lemma recordsOf_other (id : ObjectId) (r : AttendanceRecord)
    (rs : list AttendanceRecord) :
  employeeId r ≠ id → recordsOf id (rs ++ [r]) = recordsOf id rs.
Proof.
  intros Hne. rewrite recordsOf_app. unfold recordsOf at 2.
  rewrite filter_cons_False by done. rewrite filter_nil. apply app_nil_r.
Qed.

Lemma recordsOf_own (r : AttendanceRecord) (rs : list AttendanceRecord) :
  recordsOf (employeeId r) (rs ++ [r]) = recordsOf (employeeId r) rs ++ [r].
Proof.
  rewrite recordsOf_app. unfold recordsOf at 2.
  rewrite filter_cons_True by done. by rewrite filter_nil.
Qed.

Lemma recordsOf_none (id : ObjectId) (rs : list AttendanceRecord) :
  (∀ r, r ∈ rs → employeeId r ≠ id) → recordsOf id rs = [].
Proof.
  unfold recordsOf. induction rs as [|r rs IH]; intros Hall; [done|].
  rewrite filter_cons_False by (apply Hall; left).
  apply IH. intros r' Hr'. apply Hall. by right.
Qed.

(** ** The standing invariant *)

Lemma consistent_recalculated (s : Store) (id : ObjectId) (e : Employee) t1 t2 :
  (∀ r, r ∈ attendanceRecords s → is_Some (employees s !! employeeId r)) →
  (∀ id' e', id' ≠ id → employees s !! id' = Some e' →
     (attendance e' == attendancePercentage
                         (recordsOf id' (attendanceRecords s)))%Q) →
  consistent (recalculated s id e t1 t2).
Proof.
  intros Hrefs Hothers. split.
  - intros id' e'. destruct (decide (id = id')) as [<-|Hne].
    + rewrite recalculated_lookup. intros [= <-]. reflexivity.
    + rewrite recalculated_lookup_ne by done. intros He'.
      rewrite recalculated_records. by apply Hothers.
  - intros r Hr. rewrite recalculated_records in Hr.
    destruct (decide (id = employeeId r)) as [->|Hne].
    + rewrite recalculated_lookup. eauto.
    + rewrite recalculated_lookup_ne by done. by apply Hrefs.
Qed.

Lemma markAttendance_consistent input user w o w' :
  consistent (db w) →
  markAttendance input user w = (o, w') →
  consistent (db w').
Proof.
  intros [Hatt Hrefs] Hrun.
  apply markAttendance_inv in Hrun
    as [[-> _]|(id & t & e & e1 & r & t1 & t2 & t3 & t4 & _ & _ & He & _ & Hr & _ & _ & _ & ->)];
    [done|].
  assert (Hrefs' : ∀ r', r' ∈ attendanceRecords (appended (db w) r) →
                         is_Some (employees (appended (db w) r) !! employeeId r')).
  { intros r' [Hin|Hin%list_elem_of_singleton]%elem_of_app; simpl.
    - by apply Hrefs.
    - subst r'. rewrite Hr. eauto. }
  apply consistent_recalculated.
  - intros r' Hin. rewrite recalculated_records in Hin.
    destruct (decide (id = employeeId r')) as [->|Hne].
    + rewrite recalculated_lookup. eauto.
    + rewrite recalculated_lookup_ne by done. by apply Hrefs'.
  - intros id' e' Hne. rewrite recalculated_lookup_ne by done.
    rewrite recalculated_records. simpl. intros He'.
    rewrite recordsOf_other by (rewrite Hr; done). by apply Hatt.
Qed.

Lemma reachable_consistent (s : Store) : reachable s → consistent s.
Proof.
  induction 1 as [|s id e _ [Hatt Hrefs] _ Hfresh He
                  |s id e e' _ [Hatt Hrefs] Hid He
                  |w input user o w' _ IH Hrun].
  - split; simpl; [intros id e; by rewrite lookup_empty|intros r Hr; by inv Hr].
  - split; simpl.
    + intros id' e'. destruct (decide (id = id')) as [<-|Hne].
      * rewrite lookup_insert_eq. intros [= <-]. rewrite He.
        assert (recordsOf id (attendanceRecords s) = []) as ->; [|reflexivity].
        apply recordsOf_none. intros r Hr Heq.
        apply Hrefs in Hr as [e0 He0]. congruence.
      * rewrite lookup_insert_ne by done. apply Hatt.
    + intros r Hr. destruct (decide (id = employeeId r)) as [->|Hne].
      * rewrite lookup_insert_eq. eauto.
      * rewrite lookup_insert_ne by done. by apply Hrefs.
  - split; simpl.
    + intros id' e0. destruct (decide (id = id')) as [<-|Hne].
      * rewrite lookup_insert_eq. intros [= <-]. rewrite He. by apply Hatt.
      * rewrite lookup_insert_ne by done. apply Hatt.
    + intros r Hr. destruct (decide (id = employeeId r)) as [->|Hne].
      * rewrite lookup_insert_eq. eauto.
      * rewrite lookup_insert_ne by done. by apply Hrefs.
  - by eapply markAttendance_consistent.
Qed.

(** The engine's percentage of a ledger, against the specification's. *)
Lemma attendancePercentage_within (id : ObjectId)
    (ledger : list AttendanceRecord) :
  let N := days_recorded id ledger in
  let P := days_present id ledger in
  let stored := attendancePercentage (recordsOf id ledger) in
  (N = 0%nat → stored = 100%Q) ∧
  ((0 < N)%nat →
   within_rounding stored (exact_percentage P N) ∧
   (P = 0%nat → (stored == 0)%Q) ∧
   (P = N → (stored == 100)%Q)).
Proof.
  intros N P stored. unfold stored, attendancePercentage.
  rewrite recordsOf_days_recorded, recordsOf_days_present. fold N P.
  split.
  - intros ->. reflexivity.
  - intros HN. destruct (N =? 0)%nat eqn:Hz; [apply Nat.eqb_eq in Hz; lia|].
    apply percentage_within; [done|apply days_present_le].
Qed.

(** ** Running [markAttendance] on a given input *)

Lemma notes_fit_schema (n : option string) :
  notes_too_long n = false →
  match n with
  | Some s => (js_length (trim s) <=? 500)%nat
  | None => true
  end = true.
Proof.
  destruct n as [s|]; [|done]. unfold notes_too_long.
  intros H. apply Nat.leb_le.
  destruct (String.eqb s "") eqn:Hs.
  { apply String.eqb_eq in Hs. subst s. vm_compute. lia. }
  simpl in H. apply Nat.ltb_ge in H.
  pose proof (trim_length s). lia.
Qed.

Lemma validateAttendanceInput_DateMs (input : AttendanceInput) (w : World) t :
  ai_date input = DateMs t →
  validateAttendanceInput input w =
  (Return ((if t <=? wall w (ticks w) then [] else [INVALID_DATE]) ++
           (if notes_too_long (ai_notes input) then [INVALID_NOTES] else [])),
   tick w).
Proof.
  intros Hd. unfold validateAttendanceInput, bind. rewrite Hd. simpl.
  unfold ret, tick. by repeat case_match.
Qed.

Lemma schema_validate_valid (d : AttendanceDoc) (w : World) oid t :
  ObjectId_from (doc_employeeId d) = Some oid →
  doc_date d = DateMs t →
  t ≤ wall w (ticks w) →
  notes_too_long (doc_notes d) = false →
  schema_validate d w = (Return (oid, t), tick w).
Proof.
  intros Hoid Hd Ht Hn. unfold schema_validate, bind. rewrite Hd, Hoid. simpl.
  apply Z.leb_le in Ht. rewrite Ht.
  apply notes_fit_schema in Hn. by rewrite Hn.
Qed.

(** A valid input of an ADMIN whose id is an object id reaches
    [AttendanceRecord.create], and what [create] throws comes back as the
    [catch] block's response. *)
Lemma markAttendance_valid_throw (input : AttendanceInput) (u : User)
    (w w' : World) creator t err :
  user_role u = ADMIN →
  ObjectId_from (user_id u) = Some creator →
  ai_date input = DateMs t →
  t ≤ wall w (ticks w) →
  notes_too_long (ai_notes input) = false →
  AttendanceRecord_create
    {| doc_employeeId := ai_employeeId input; doc_date := ai_date input;
       doc_present := ai_present input; doc_notes := ai_notes input;
       doc_createdBy := creator |} (tick w) = (Throw err, w') →
  markAttendance input (Some u) w = (Return (failed_with err), w').
Proof.
  intros Hadmin Hcreator Hd Ht Hn Hc.
  unfold markAttendance, try_catch, bind. rewrite checkRole_run, Hadmin.
  rewrite bool_decide_eq_true_2 by set_solver.
  rewrite (validateAttendanceInput_DateMs _ _ t) by done.
  apply Z.leb_le in Ht. rewrite Ht, Hn. simpl.
  unfold lift, new_ObjectId. rewrite Hcreator. by rewrite Hc.
Qed.

Lemma AttendanceRecord_create_missing (d : AttendanceDoc) (w : World) oid t :
  ObjectId_from (doc_employeeId d) = Some oid →
  doc_date d = DateMs t →
  t ≤ wall w (ticks w) →
  notes_too_long (doc_notes d) = false →
  employees (db w) !! oid = None →
  AttendanceRecord_create d w =
  (Throw (Error "Employee not found"), tick (tick w)).
Proof.
  intros Hoid Hd Ht Hn He. unfold AttendanceRecord_create, bind.
  rewrite (schema_validate_valid _ _ oid t) by done.
  pose proof (ObjectId_from_is_ObjectId _ _ Hoid) as Hcanon.
  unfold newDate at 1. cbn [fst snd employeeId date].
  unfold pre_save, bind. rewrite (Employee_findById_run oid oid) by done.
  cbn. by rewrite He.
Qed.

Lemma AttendanceRecord_create_duplicate (d : AttendanceDoc) (w : World)
    oid t e :
  ObjectId_from (doc_employeeId d) = Some oid →
  doc_date d = DateMs t →
  t ≤ wall w (ticks w) →
  t ≤ wall w (S (S (ticks w))) →
  notes_too_long (doc_notes d) = false →
  employees (db w) !! oid = Some e →
  duplicate_key oid t (attendanceRecords (db w)) = true →
  AttendanceRecord_create d w =
  (Throw (E11000 oid t), tick (tick (tick w))).
Proof.
  intros Hoid Hd Ht Ht' Hn He Hdup. unfold AttendanceRecord_create, bind.
  rewrite (schema_validate_valid _ _ oid t) by done.
  pose proof (ObjectId_from_is_ObjectId _ _ Hoid) as Hcanon.
  unfold newDate at 1. cbn [fst snd employeeId date].
  unfold pre_save, bind. rewrite (Employee_findById_run oid oid) by done.
  cbn. rewrite He. cbn.
  destruct (_ <? t) eqn:Hfut; [apply Z.ltb_lt in Hfut; lia|]. cbn.
  by rewrite Hdup.
Qed.

(** ** Request keys *)

Lemma add_key_prefix (acc : list string) (k : string) :
  acc `prefix_of` add_key acc k.
Proof. unfold add_key. case_decide; [done|]. by apply prefix_app_r. Qed.

Lemma foldl_add_key_prefix (ids acc : list string) :
  acc `prefix_of` foldl add_key acc ids.
Proof.
  revert acc. induction ids as [|k ids IH]; intros acc; simpl; [done|].
  etransitivity; [apply add_key_prefix|apply IH].
Qed.

Lemma add_key_NoDup (acc : list string) (k : string) :
  NoDup acc → NoDup (add_key acc k).
Proof.
  intros Hnd. unfold add_key. case_decide; [done|].
  apply NoDup_app. split; [done|]. split; [|apply NoDup_singleton].
  intros x Hx ->%list_elem_of_singleton. done.
Qed.

Lemma add_key_elem_of (acc : list string) (k x : string) :
  x ∈ add_key acc k ↔ x ∈ acc ∨ x = k.
Proof.
  unfold add_key. case_decide; [|set_solver].
  split; [by left|]. intros [?| ->]; done.
Qed.

Lemma distinct_keys_NoDup (ids : list string) : NoDup (distinct_keys ids).
Proof.
  unfold distinct_keys. generalize (NoDup_nil_2 (A := string)).
  generalize (@nil string). induction ids as [|k ids IH]; intros acc Hacc;
    simpl; [done|].
  by apply IH, add_key_NoDup.
Qed.

Lemma foldl_add_key_elem_of (ids acc : list string) (x : string) :
  x ∈ foldl add_key acc ids ↔ x ∈ acc ∨ x ∈ ids.
Proof.
  revert acc. induction ids as [|k ids IH]; intros acc; simpl.
  - set_solver.
  - rewrite IH, add_key_elem_of. set_solver.
Qed.

Lemma distinct_keys_elem_of (ids : list string) (x : string) :
  x ∈ distinct_keys ids ↔ x ∈ ids.
Proof. unfold distinct_keys. rewrite foldl_add_key_elem_of. set_solver. Qed.

Lemma distinct_keys_nonempty (ids : list string) :
  ids ≠ [] → distinct_keys ids ≠ [].
Proof.
  destruct ids as [|k ids]; [done|]. intros _ Hnil.
  assert (Hk : k ∈ distinct_keys (k :: ids)).
  { apply distinct_keys_elem_of. by left. }
  rewrite Hnil in Hk. by inv Hk.
Qed.


(** ** DataLoader: the batches of a tick *)

Lemma promise_of_elem_of (l : DataLoader) (p : Promise) (k : string) :
  promise_of l p k → k ∈ concat (dl_batches l).
Proof.
  intros (b & Hb & Hk). apply list_elem_of_In, in_concat.
  exists b. split; apply list_elem_of_In; by eapply list_elem_of_lookup_2.
Qed.

Lemma elem_of_promise_of (l : DataLoader) (k : string) :
  k ∈ concat (dl_batches l) → ∃ p, promise_of l p k.
Proof.
  intros (b & Hb & Hk)%list_elem_of_In%in_concat.
  apply list_elem_of_In, list_elem_of_lookup in Hb as [i Hi].
  apply list_elem_of_In, list_elem_of_lookup in Hk as [j Hj].
  exists {| p_batch := i; p_slot := j |}, b. done.
Qed.

Lemma batched_new (maxBatchSize : nat) :
  (1 ≤ maxBatchSize)%nat → batched (newDataLoader maxBatchSize) [].
Proof.
  intros Hmax. split; [done|]. split; [done|]. split; [apply NoDup_nil_2|].
  split; [by intros i b Hb|].
  intros k p. simpl. rewrite lookup_empty. split; [done|].
  by intros (b & Hb & _).
Qed.

(** [getCurrentBatch] hands back a loader whose last batch has room. *)
Lemma getCurrentBatch_batched (l : DataLoader) (ks : list string) :
  batched l ks →
  ∃ l1 init kb,
    getCurrentBatch l = (l1, length init) ∧
    batched l1 ks ∧
    dl_batches l1 = init ++ [kb] ∧
    (length kb < dl_maxBatchSize l)%nat ∧
    dl_cacheMap l1 = dl_cacheMap l ∧
    dl_maxBatchSize l1 = dl_maxBatchSize l ∧
    dl_batches l `prefix_of` dl_batches l1.
Proof.
  intros (Hmax & Hks & Hnd & Hsize & Hcache). unfold getCurrentBatch.
  destruct (last (dl_batches l)) as [kb|] eqn:Hlast.
  - apply last_Some in Hlast as [init Hinit].
    destruct (length kb <? dl_maxBatchSize l)%nat eqn:Hroom.
    + apply Nat.ltb_lt in Hroom. exists l, init, kb.
      split; [f_equal; rewrite Hinit, length_app; simpl; lia|].
      split; [done|]. done.
    + apply Nat.ltb_ge in Hroom.
      set (l1 := {| dl_maxBatchSize := dl_maxBatchSize l;
                    dl_cacheMap := dl_cacheMap l;
                    dl_batches := dl_batches l ++ [[]] |}).
      assert (Hl1 : batched l1 ks).
      { split; [done|]. split.
        { simpl. rewrite concat_app, Hks. simpl. apply app_nil_r. }
        split; [done|]. split.
        - intros i b Hb. simpl in *. rewrite length_app. simpl.
          apply lookup_app_Some in Hb as [Hb|[Hi Hb]].
          + destruct (Hsize i b Hb) as [Hle Hfull]. split; [done|]. intros Hi.
            destruct (decide (S i < length (dl_batches l))%nat) as [|Hend];
              [by apply Hfull|].
            assert (i = length init) as ->.
            { apply lookup_lt_Some in Hb. rewrite Hinit, length_app in *.
              simpl in *. lia. }
            rewrite Hinit, lookup_app_r, Nat.sub_diag in Hb by lia.
            injection Hb as <-. lia.
          + apply list_lookup_singleton_Some in Hb as [Hz <-]. simpl.
            split; [lia|]. intros. lia.
        - intros k p. simpl. rewrite Hcache. unfold promise_of. simpl. split.
          + intros (b & Hb & Hk). exists b. split; [|done].
            by apply lookup_app_l_Some.
          + intros (b & Hb & Hk). exists b. split; [|done].
            apply lookup_app_Some in Hb as [Hb|[_ Hb]]; [done|].
            apply list_lookup_singleton_Some in Hb as [_ <-]. done. }
      exists l1, (dl_batches l), []. split; [reflexivity|].
      split; [exact Hl1|]. split; [done|]. split; [simpl; lia|].
      split; [done|]. split; [done|]. by apply prefix_app_r.
  - apply last_None in Hlast.
    set (l1 := {| dl_maxBatchSize := dl_maxBatchSize l;
                  dl_cacheMap := dl_cacheMap l;
                  dl_batches := dl_batches l ++ [[]] |}).
    assert (Hl1 : batched l1 ks).
    { split; [done|]. split; [by simpl; rewrite Hlast in *|].
      split; [done|]. split.
      - intros i b. simpl. rewrite Hlast. simpl.
        intros [-> <-]%list_lookup_singleton_Some.
        simpl. split; [lia|]. intros. lia.
      - intros k p. simpl. rewrite Hcache. unfold promise_of. simpl.
        rewrite Hlast. simpl. split.
        + by intros (b & Hb & _).
        + intros (b & [_ <-]%list_lookup_singleton_Some & Hk). done. }
    exists l1, [], []. split; [by rewrite Hlast|].
    split; [exact Hl1|]. split; [by simpl; rewrite Hlast|].
    split; [simpl; lia|]. split; [done|]. split; [done|].
    rewrite Hlast. apply prefix_nil.
Qed.

Lemma add_key_old (ks : list string) (k : string) :
  k ∈ ks → add_key ks k = ks.
Proof. intros Hk. unfold add_key. by rewrite decide_True. Qed.

Lemma add_key_new (ks : list string) (k : string) :
  k ∉ ks → add_key ks k = ks ++ [k].
Proof. intros Hk. unfold add_key. by rewrite decide_False. Qed.

(** A slot of the batches before a key joined the last batch is the same
    slot afterwards. *)
Lemma lookup_snoc_batch (init : list (list string)) (kb : list string)
    (k : string) (i j : nat) (k' : string) :
  (∃ b, (init ++ [kb]) !! i = Some b ∧ b !! j = Some k') →
  ∃ b, (init ++ [kb ++ [k]]) !! i = Some b ∧ b !! j = Some k'.
Proof.
  intros (b & Hb & Hk). apply lookup_app_Some in Hb as [Hb|[Hi Hb]].
  - exists b. split; [by apply lookup_app_l_Some|done].
  - apply list_lookup_singleton_Some in Hb as [Hz <-].
    exists (kb ++ [k]). split; [|by apply lookup_app_l_Some].
    rewrite lookup_app_r by lia. by rewrite Hz.
Qed.

(** One [load] on any loader in a tick: the key joins the distinct keys, the
    promise handed out is the key's, and the promises handed out before
    stay what they were. *)
Lemma load_batched (l : DataLoader) (ks : list string) (k : string) :
  batched l ks →
  ∃ p l',
    load k l = (p, l') ∧
    batched l' (add_key ks k) ∧
    promise_of l' p k ∧
    (∀ p' k', promise_of l p' k' → promise_of l' p' k') ∧
    dl_maxBatchSize l' = dl_maxBatchSize l.
Proof.
  intros Hl.
  destruct (getCurrentBatch_batched l ks Hl)
    as (l1 & init & kb & Hg & Hl1 & Hshape & Hroom & Hc & Hm & Hpre).
  assert (Hkeep : ∀ p' k', promise_of l p' k' → promise_of l1 p' k').
  { intros p' k' (b & Hb & Hk). exists b. split; [|done].
    by eapply prefix_lookup_Some. }
  destruct Hl1 as (Hmax1 & Hks1 & Hnd & Hsize1 & Hcache1).
  assert (Hl1 : batched l1 ks) by done.
  unfold load. rewrite Hg.
  destruct (dl_cacheMap l1 !! k) as [p|] eqn:Hp.
  - apply Hcache1 in Hp as Hpk.
    assert (Hin : k ∈ ks).
    { rewrite <- Hks1. by eapply promise_of_elem_of. }
    exists p, l1. rewrite add_key_old by done. done.
  - assert (Hout : k ∉ ks).
    { intros Hin. rewrite <- Hks1 in Hin.
      apply elem_of_promise_of in Hin as [p Hpk].
      apply Hcache1 in Hpk. congruence. }
    rewrite add_key_new by done.
    assert (Hat : dl_batches l1 !! length init = Some kb).
    { rewrite Hshape, lookup_app_r, Nat.sub_diag by lia. done. }
    rewrite Hat. simpl.
    assert (Hnew : <[length init := kb ++ [k]]> (dl_batches l1)
                   = init ++ [kb ++ [k]]).
    { rewrite Hshape.
      replace (length init) with (length init + 0)%nat at 1 by lia.
      by rewrite insert_app_r. }
    rewrite Hnew.
    eexists _, _. split; [reflexivity|].
    assert (Hown : ∃ b, (init ++ [kb ++ [k]]) !! length init = Some b ∧
                        b !! length kb = Some k).
    { exists (kb ++ [k]).
      split; rewrite lookup_app_r, Nat.sub_diag by lia; done. }
    split; [|split; [exact Hown|split; [|by rewrite <- Hm]]].
    2:{ intros p' k' Hpk. apply Hkeep in Hpk. unfold promise_of in *. simpl.
        rewrite Hshape in Hpk. by apply lookup_snoc_batch. }
    split; [done|]. split.
    { simpl. rewrite concat_app. simpl. rewrite app_nil_r, app_assoc.
      f_equal. rewrite <- Hks1, Hshape, concat_app. simpl.
      by rewrite app_nil_r. }
    split.
    { apply NoDup_app. split; [done|]. split; [|apply NoDup_singleton].
      intros x Hx ->%list_elem_of_singleton. done. }
    split.
    + intros i b Hb. simpl in *. rewrite length_app. simpl.
      apply lookup_app_Some in Hb as [Hb|[Hi Hb]].
      * destruct (Hsize1 i b) as [Hle Hfull].
        { rewrite Hshape. by apply lookup_app_l_Some. }
        split; [done|]. intros Hi. apply Hfull.
        rewrite Hshape, length_app. simpl. lia.
      * apply list_lookup_singleton_Some in Hb as [Hz <-].
        rewrite length_app. simpl. split; [lia|]. intros. lia.
    + intros k' p'. unfold promise_of. simpl.
      destruct (decide (k = k')) as [<-|Hne].
      * rewrite lookup_insert_eq. split.
        -- by intros [= <-].
        -- intros (b & Hb & Hk). f_equal.
           destruct p' as [i j]. simpl in *. f_equal.
           ++ apply lookup_app_Some in Hb as [Hb|[Hi Hb]].
              ** destruct Hout. rewrite <- Hks1, Hshape, concat_app.
                 apply elem_of_app. left. apply list_elem_of_In, in_concat.
                 exists b. split; apply list_elem_of_In;
                   by eapply list_elem_of_lookup_2.
              ** apply list_lookup_singleton_Some in Hb as [Hz _]. lia.
           ++ apply lookup_app_Some in Hb as [Hb|[Hi Hb]].
              ** destruct Hout. rewrite <- Hks1, Hshape, concat_app.
                 apply elem_of_app. left. apply list_elem_of_In, in_concat.
                 exists b. split; apply list_elem_of_In;
                   by eapply list_elem_of_lookup_2.
              ** apply list_lookup_singleton_Some in Hb as [Hz <-].
                 apply lookup_app_Some in Hk as [Hk|[Hj Hk]].
                 --- destruct Hout. rewrite <- Hks1, Hshape, concat_app.
                     apply elem_of_app. right. simpl. rewrite app_nil_r.
                     by eapply list_elem_of_lookup_2.
                 --- apply list_lookup_singleton_Some in Hk as [Hz' _]. lia.
      * rewrite lookup_insert_ne by done. rewrite Hcache1.
        unfold promise_of. rewrite Hshape. split.
        -- apply lookup_snoc_batch.
        -- intros (b & Hb & Hk).
           apply lookup_app_Some in Hb as [Hb|[Hi Hb]].
           ++ exists b. split; [by apply lookup_app_l_Some|done].
           ++ apply list_lookup_singleton_Some in Hb as [Hz <-].
              exists kb. split; [by rewrite lookup_app_r, Hz by lia|].
              apply lookup_app_Some in Hk as [Hk|[Hj Hk]]; [done|].
              apply list_lookup_singleton_Some in Hk as [_ Hk]. congruence.
Qed.

Lemma loadAll_batched (ids : list string) (l : DataLoader) (ks : list string) :
  batched l ks →
  ∃ ps l',
    loadAll ids l = (ps, l') ∧
    batched l' (foldl add_key ks ids) ∧
    Forall2 (fun id p => promise_of l' p id) ids ps ∧
    (∀ p k, promise_of l p k → promise_of l' p k) ∧
    dl_maxBatchSize l' = dl_maxBatchSize l.
Proof.
  revert l ks. induction ids as [|k ids IH]; intros l ks Hl; simpl.
  - eexists _, _. split; [reflexivity|]. split; [done|].
    split; [constructor|done].
  - destruct (load_batched l ks k Hl) as (p & l1 & -> & Hl1 & Hp & Hkeep1 & Hm1).
    destruct (IH l1 (add_key ks k) Hl1) as (ps & l2 & -> & Hl2 & Hps & Hkeep2 & Hm2).
    eexists _, _. split; [reflexivity|]. split; [done|].
    split; [constructor; [by apply Hkeep2|done]|].
    split; [intros p' k' Hpk; by apply Hkeep2, Hkeep1|congruence].
Qed.

Lemma concat_dispatched (l : DataLoader) :
  concat (dispatched l) = concat (dl_batches l).
Proof.
  unfold dispatched. induction (dl_batches l) as [|b bs IH]; [done|].
  rewrite filter_cons. destruct (decide (b ≠ [])) as [Hb|Hb]; simpl.
  - by rewrite IH.
  - destruct b; [by rewrite IH|]. by destruct Hb.
Qed.

(** What the store is asked at the dispatch of a tick: batches that spell
    the distinct keys, none empty, none above the limit, all but the last
    full. *)
Lemma dispatched_batched (l : DataLoader) (ks : list string) :
  batched l ks →
  concat (dispatched l) = ks ∧
  Forall (fun b => b ≠ [] ∧ (length b ≤ dl_maxBatchSize l)%nat) (dispatched l) ∧
  (∀ i b, dispatched l !! i = Some b → (S i < length (dispatched l))%nat →
          length b = dl_maxBatchSize l).
Proof.
  intros (Hmax & Hks & Hnd & Hsize & _).
  split; [by rewrite concat_dispatched|]. split.
  - apply Forall_forall. intros b [Hne Hin]%list_elem_of_filter.
    apply list_elem_of_lookup in Hin as [i Hi].
    split; [done|]. by apply (Hsize i b).
  - unfold dispatched.
    destruct (last (dl_batches l)) as [kb|] eqn:Hlast.
    2:{ apply last_None in Hlast. rewrite Hlast. by intros i b Hb. }
    apply last_Some in Hlast as [init Hinit].
    assert (Hfull : filter (fun ks : list string => ks ≠ []) init = init).
    { clear Hks Hnd. assert (Hall : Forall (fun b => b ≠ []) init).
      { apply Forall_forall. intros b [i Hi]%list_elem_of_lookup.
        destruct (Hsize i b) as [_ Hb].
        { rewrite Hinit. by apply lookup_app_l_Some. }
        assert (length b = dl_maxBatchSize l) as Hlen.
        { apply Hb. apply lookup_lt_Some in Hi.
          rewrite Hinit, length_app. simpl. lia. }
        destruct b; [simpl in Hlen; lia|done]. }
      clear -Hall. induction Hall as [|b bs Hb _ IH]; [done|].
      by rewrite filter_cons_True, IH. }
    rewrite Hinit, filter_app, Hfull.
    intros i b Hb Hi.
    assert (Hin : init !! i = Some b).
    { rewrite filter_cons, filter_nil in Hb, Hi.
      destruct (decide (kb ≠ [])).
      - rewrite length_app in Hi. simpl in Hi.
        apply lookup_app_Some in Hb as [Hb|[Hge Hb]]; [done|].
        apply list_lookup_singleton_Some in Hb as [Hz _]. lia.
      - by rewrite app_nil_r in Hb. }
    destruct (Hsize i b) as [_ Hb'].
    { rewrite Hinit. by apply lookup_app_l_Some. }
    apply Hb'. apply lookup_lt_Some in Hin.
    rewrite Hinit, length_app. simpl. lia.
Qed.

(** A promise settles with what the batch function holds for its key. *)
Lemma settle_promise_of {V} (batchLoadFn : list string → Outcome (list V))
    (value : string → V) (l : DataLoader) (p : Promise) (k : string) :
  (∀ ks, ks ∈ dl_batches l → batchLoadFn ks = Return (value <$> ks)) →
  promise_of l p k →
  settle batchLoadFn l p = Return (value k).
Proof.
  intros Hfn (b & Hb & Hk).
  unfold settle. rewrite Hb, Hfn by (by eapply list_elem_of_lookup_2).
  rewrite length_fmap, Nat.eqb_refl.
  by rewrite list_lookup_fmap, Hk.
Qed.

Lemma length_concat_full (bs : list (list string)) (m : nat) :
  Forall (fun b => length b = m) bs → length (concat bs) = (m * length bs)%nat.
Proof.
  induction 1 as [|b bs Hb _ IH]; simpl; [lia|].
  rewrite length_app, IH. lia.
Qed.

(** Batches that are all full but the last number the ceiling of the key
    count over the batch size. *)
Lemma batch_count (bs : list (list string)) (m : nat) :
  Forall (fun b => b ≠ [] ∧ (length b ≤ m)%nat) bs →
  (∀ i b, bs !! i = Some b → (S i < length bs)%nat → length b = m) →
  (length (concat bs) ≤ m * length bs)%nat ∧
  (bs ≠ [] → m * length bs < length (concat bs) + m)%nat.
Proof.
  intros Hall Hfull.
  destruct bs as [|b0 bs0] using rev_ind; [split; [simpl; lia|done]|].
  clear IHbs0. apply Forall_app in Hall as [_ Hlast].
  apply Forall_singleton in Hlast as [Hne Hle].
  assert (Hinit : Forall (fun b => length b = m) bs0).
  { apply Forall_forall. intros b [i Hi]%list_elem_of_lookup.
    apply (Hfull i); [by apply lookup_app_l_Some|].
    apply lookup_lt_Some in Hi. rewrite length_app. simpl. lia. }
  rewrite concat_app, !length_app, (length_concat_full _ m Hinit). simpl.
  rewrite length_app. simpl.
  assert (0 < length b0)%nat by (destruct b0; [done|simpl; lia]).
  split; [lia|]. intros _. lia.
Qed.

(** Batches that spell at most [m] keys, all but the last of them full and
    none empty, are one batch. *)
Lemma batches_one (bs : list (list string)) (m : nat) :
  Forall (fun b => b ≠ [] ∧ (length b ≤ m)%nat) bs →
  (∀ i b, bs !! i = Some b → (S i < length bs)%nat → length b = m) →
  concat bs ≠ [] →
  (length (concat bs) ≤ m)%nat →
  bs = [concat bs].
Proof.
  intros Hall Hfull Hne Hfit.
  destruct bs as [|b1 [|b2 bs]]; [done|by simpl; rewrite app_nil_r|].
  exfalso.
  assert (length b1 = m) by (apply (Hfull 0%nat); [done|simpl; lia]).
  apply Forall_cons in Hall as [_ Hall].
  apply Forall_cons in Hall as [[Hb2 _] _].
  simpl in Hfit. rewrite !length_app in Hfit.
  destruct b2; [done|]. simpl in Hfit. lia.
Qed.

(** The loads of one tick on a fresh loader: the promises are those of the
    requested keys, and the dispatched batches spell the distinct keys. *)
Lemma loadAll_fresh (ids : list string) (m : nat) :
  (1 ≤ m)%nat →
  ∃ ps l',
    loadAll ids (newDataLoader m) = (ps, l') ∧
    Forall2 (fun id p => promise_of l' p id) ids ps ∧
    (∀ ks, ks ∈ dl_batches l' → ∀ k, k ∈ ks → k ∈ ids) ∧
    concat (dispatched l') = distinct_keys ids ∧
    Forall (fun b => b ≠ [] ∧ (length b ≤ m)%nat) (dispatched l') ∧
    (∀ i b, dispatched l' !! i = Some b →
            (S i < length (dispatched l'))%nat → length b = m).
Proof.
  intros Hm.
  destruct (loadAll_batched ids (newDataLoader m) [])
    as (ps & l' & Hload & Hl' & Hps & _ & Hmax); [by apply batched_new|].
  exists ps, l'. split; [done|]. split; [done|].
  fold (distinct_keys ids) in Hl'.
  split.
  { intros ks Hks k Hk. apply distinct_keys_elem_of.
    destruct Hl' as (_ & <- & _). apply list_elem_of_In, in_concat.
    exists ks. split; by apply list_elem_of_In. }
  apply dispatched_batched in Hl' as (Hks & Hall & Hfull).
  rewrite Hmax in *. done.
Qed.

(** ** The employee batch function *)

Lemma js_Map_list_to_map {V} (entries : list (string * V)) :
  js_Map entries = list_to_map (reverse entries).
Proof.
  unfold js_Map. induction entries as [|kv entries IH] using rev_ind; [done|].
  rewrite foldl_app, reverse_app. simpl. by rewrite IH.
Qed.

Lemma NoDup_fst_filter {V} (P : string * V → Prop) `{∀ kv, Decision (P kv)}
    (l : list (string * V)) :
  NoDup l.*1 → NoDup (filter P l).*1.
Proof.
  induction l as [|kv l IH]; [done|]. rewrite fmap_cons.
  intros [Hkv Hnd]%NoDup_cons. rewrite filter_cons.
  case_decide; [|by apply IH]. rewrite fmap_cons. apply NoDup_cons.
  split; [|by apply IH]. intros Hin. apply Hkv.
  apply list_elem_of_fmap in Hin as (kv' & -> & Hin).
  apply list_elem_of_filter in Hin as [_ Hin].
  apply list_elem_of_fmap. eauto.
Qed.

Lemma employee_entries_stored (kvs : list (string * Employee)) :
  employee_entries
    ((fun kv => {| lean__id := Some kv.1; lean_id := None; lean_doc := kv.2 |})
       <$> kvs) =
  Return ((fun kv => (kv.1, {| lean__id := Some kv.1; lean_id := Some kv.1;
                               lean_doc := kv.2 |})) <$> kvs).
Proof.
  induction kvs as [|kv kvs IH]; [done|].
  rewrite !fmap_cons. cbn [employee_entries lean__id lean_doc].
  by rewrite IH.
Qed.

Lemma new_ObjectIds_is_ObjectId (ids : list string) :
  Forall is_ObjectId ids → new_ObjectIds ids = Return ids.
Proof.
  induction 1 as [|id ids Hid _ IH]; [done|]. simpl.
  by rewrite (new_ObjectId_is_ObjectId id Hid), IH.
Qed.

(** For requested ids in the form [toString] prints, the batch function
    sends one query and answers every id with its stored employee or the
    absent marker, whatever the order the store returns documents in. *)
Lemma employeeBatch_spec (s : Store) (ids : list string) :
  Forall is_ObjectId ids →
  employeeBatch s ids = ([FindEmployeesIn ids], Return (emp s <$> ids)).
Proof.
  intros Hids. unfold employeeBatch, Employee_find_in.
  rewrite new_ObjectIds_is_ObjectId by done.
  rewrite employee_entries_stored.
  f_equal. f_equal. apply list_fmap_ext. intros _ id Hid%list_elem_of_lookup_2.
  rewrite js_Map_list_to_map. unfold emp.
  set (found := filter (fun kv : string * Employee => kv.1 ∈ ids)
                  (map_to_list (employees s))).
  assert (Hkeys :
    ((fun kv : string * Employee =>
        (kv.1, {| lean__id := Some kv.1; lean_id := Some kv.1;
                  lean_doc := kv.2 |})) <$> found).*1 = found.*1).
  { rewrite <- list_fmap_compose. by apply list_fmap_ext. }
  assert (Hnd : NoDup found.*1).
  { apply NoDup_fst_filter, NoDup_fst_map_to_list. }
  destruct (employees s !! id) as [e|] eqn:He; simpl.
  - apply elem_of_list_to_map_1.
    + rewrite fmap_reverse, Hkeys. by rewrite reverse_Permutation.
    + apply elem_of_reverse, list_elem_of_fmap. exists (id, e). split; [done|].
      apply list_elem_of_filter. split; [done|]. by apply elem_of_map_to_list.
  - apply not_elem_of_list_to_map_1.
    rewrite fmap_reverse, Hkeys, elem_of_reverse.
    intros ([id' e] & -> & Hin)%list_elem_of_fmap.
    apply list_elem_of_filter in Hin as [_ Hin].
    apply elem_of_map_to_list in Hin. simpl in He. congruence.
Qed.

(** One string that is no object id rejects the whole batch, and no query
    is sent. *)
Lemma employeeBatch_malformed (s : Store) (ids : list string) :
  Exists (fun id => ObjectId_from id = None) ids →
  ∃ id, id ∈ ids ∧ ObjectId_from id = None ∧
        employeeBatch s ids = ([], Throw (Error (BSONErrorMessage id))).
Proof.
  intros Hbad. unfold employeeBatch.
  assert (∃ id, id ∈ ids ∧ ObjectId_from id = None ∧
                new_ObjectIds ids = Throw (Error (BSONErrorMessage id)))
    as (id & Hin & Hid & ->); [|by exists id].
  induction ids as [|id ids IH]; [by inv Hbad|]. simpl. unfold new_ObjectId.
  destruct (ObjectId_from id) as [oid|] eqn:Hid.
  - destruct IH as (id' & Hin & Hid' & ->); [by inv Hbad|].
    exists id'. split; [by right|done].
  - exists id. split; [by left|done].
Qed.

(** ** The attendance batch function *)









(** ** Pagination arithmetic *)

(** [Math.ceil(a / b)] for a positive [b] is the least [n] with
    [a ≤ b × n]. *)
Lemma Qceiling_div_bounds (a b : Z) :
  0 < b →
  let n := Qceiling (inject_Z a / inject_Z b) in
  b * (n - 1) < a ≤ b * n.
Proof.
  intros Hb n. subst n. destruct b as [|pb|pb]; try lia.
  unfold Qceiling, Qfloor, Qdiv, Qmult, Qinv, Qopp, inject_Z.
  cbn [Qnum Qden]. rewrite Z.mul_1_r, Pos.mul_1_l.
  pose proof (Z.div_mod (- a) (Z.pos pb) ltac:(lia)) as Hdm.
  pose proof (Z.mod_pos_bound (- a) (Z.pos pb) ltac:(lia)) as Hmod.
  nia.
Qed.

Lemma checkRole_any (u : User) :
  checkRole [ADMIN; EMPLOYEE] (Some u) = Return true.
Proof.
  unfold checkRole. rewrite bool_decide_eq_true_2; [done|].
  destruct (user_role u); set_solver.
Qed.

(** ** What the built query asks of a document *)



Lemma set_when_lookup_ne {A} (path path' : string) (x : option A)
    (truthy : A → bool) (condition : A → gmap string Condition → Condition)
    (query : gmap string Condition) :
  path ≠ path' →
  set_when path x truthy condition query !! path' = query !! path'.
Proof.
  intros Hne. unfold set_when. destruct x as [a|]; [|done].
  destruct (truthy a); [|done]. by apply lookup_insert_ne.
Qed.

Lemma set_when_lookup {A} (path : string) (x : option A)
    (truthy : A → bool) (condition : A → gmap string Condition → Condition)
    (query : gmap string Condition) :
  set_when path x truthy condition query !! path =
  match x with
  | Some a => if truthy a then Some (condition a query) else query !! path
  | None => query !! path
  end.
Proof.
  unfold set_when. destruct x as [a|]; [|done].
  destruct (truthy a); [|done]. by apply lookup_insert_eq.
Qed.














(** ** Queries the store accepts *)

Lemma omap_None {A B} (f : A → option B) (l : list A) :
  (∀ x, x ∈ l → f x = None) → omap f l = [].
Proof.
  induction l as [|x l IH]; intros Hall; [done|]. simpl.
  rewrite (Hall x) by left. apply IH. intros y Hy. apply Hall. by right.
Qed.

Lemma query_error_None (regex_compiles : string → bool)
    (query : gmap string Condition) :
  accepted regex_compiles query → query_error regex_compiles query = None.
Proof.
  intros Hall. unfold query_error. rewrite omap_None; [done|].
  intros [path c] Hin%elem_of_map_to_list. by eapply Hall.
Qed.

Lemma set_when_accepted {A} (regex_compiles : string → bool) (path : string)
    (x : option A) (truthy : A → bool)
    (condition : A → gmap string Condition → Condition)
    (query : gmap string Condition) :
  accepted regex_compiles query →
  (accepted regex_compiles query →
   ∀ a, x = Some a → truthy a = true →
        invalid_regex regex_compiles (condition a query) = None) →
  accepted regex_compiles (set_when path x truthy condition query).
Proof.
  intros Hquery Hnew p c. unfold set_when.
  destruct x as [a|]; [|apply Hquery].
  destruct (truthy a) eqn:Ha; [|apply Hquery].
  destruct (decide (path = p)) as [<-|Hne].
  - rewrite lookup_insert_eq. intros [= <-]. by apply Hnew.
  - rewrite lookup_insert_ne by done. apply Hquery.
Qed.

Lemma spread_accepted (regex_compiles : string → bool) (op : string)
    (v : JsValue) (query : gmap string Condition) (path : string) :
  op ≠ "$regex" →
  accepted regex_compiles query →
  invalid_regex regex_compiles
    (Operators (<[op := v]> (spread (query !! path)))) = None.
Proof.
  intros Hop Hq. unfold invalid_regex. rewrite lookup_insert_ne by done.
  destruct (query !! path) as [[w|ops]|] eqn:Hc; simpl;
    rewrite ?lookup_empty; try done.
  exact (Hq path (Operators ops) Hc).
Qed.

(** The store accepts the query built from a filter whose name, if any,
    compiles as a regular expression. *)
Lemma employees_query_accepted (regex_compiles : string → bool)
    (filter : option EmployeeFilter) :
  (∀ f n, filter = Some f → f_name f = Some n → regex_compiles n = true) →
  query_error regex_compiles (employees_query filter) = None.
Proof.
  intros Hname. apply query_error_None. unfold employees_query.
  destruct filter as [f|]; [|intros p c; by rewrite lookup_empty].
  repeat (apply set_when_accepted;
          [|intros Hq a Ha Htruthy;
            first [ reflexivity
                  | by apply spread_accepted
                  | idtac ]]).
  - intros p c. by rewrite lookup_empty.
  - unfold invalid_regex. rewrite lookup_insert_eq.
    by rewrite (Hname f a eq_refl Ha).
Qed.

(** ** Attendance percentage after a write *)

(** C1, as stated, fails: the stored value is a double, and a double is not
    the real number [100 × P / N] in general. After a third record is marked
    for an employee with one present and one absent day, one record of three
    says present and the stored attendance is not [100 × 1 / 3]. *)
Lemma markAttendance_attendance_percentage_counterexample :
  (markAttendance (absent_on 900) (Some admin0) world2).1
    = Return marked_successfully ∧
  ∃ w' e,
    w' = (markAttendance (absent_on 900) (Some admin0) world2).2 ∧
    employees (db w') !! alice_id = Some e ∧
    days_recorded alice_id (attendanceRecords (db w')) = 3%nat ∧
    days_present alice_id (attendanceRecords (db w')) = 1%nat ∧
    ¬ (attendance e == exact_percentage 1 3)%Q.
Proof.
  split; [vm_compute; reflexivity|].
  eexists _, _. split; [reflexivity|]. split; [vm_compute; reflexivity|].
  split; [vm_compute; reflexivity|]. split; [vm_compute; reflexivity|].
  intros H. vm_compute in H. discriminate H.
Qed.

(** C1, amended. After every successful [markAttendance], the targeted
    employee has at least one attendance record and its stored [attendance]
    is [100 × P / N] up to floating rounding, where [N] counts its records
    and [P] those that say present: the relative error is at most [2^-51],
    and the value is exactly 0 when no record says present and exactly 100
    when all do. In every store the API can reach, moreover, each employee's
    stored [attendance] is within that tolerance of its ledger's percentage,
    and exactly 100 for an employee without records. *)
Theorem markAttendance_attendance_percentage
    (input : AttendanceInput) (user : option User) (w w' : World)
    (resp : MutationResponse) :
  markAttendance input user w = (Return resp, w') →
  success resp = true →
  (∃ id e,
      ObjectId_from (ai_employeeId input) = Some id ∧
      employees (db w') !! id = Some e ∧
      let N := days_recorded id (attendanceRecords (db w')) in
      let P := days_present id (attendanceRecords (db w')) in
      (0 < N)%nat ∧
      within_rounding (attendance e) (exact_percentage P N) ∧
      (P = 0%nat → (attendance e == 0)%Q) ∧
      (P = N → (attendance e == 100)%Q)) ∧
  (reachable (db w) →
   ∀ id e, employees (db w') !! id = Some e →
     let N := days_recorded id (attendanceRecords (db w')) in
     let P := days_present id (attendanceRecords (db w')) in
     (N = 0%nat → (attendance e == 100)%Q) ∧
     ((0 < N)%nat → within_rounding (attendance e) (exact_percentage P N))).
Proof.
  intros Hrun Hok. split.
  - apply markAttendance_inv in Hrun
      as [[_ Hfail]|(id & t & e & e1 & r & t1 & t2 & t3 & t4 & Hid & _ & _ & _ & Hr & _ & _ & _ & ->)].
    { specialize (Hfail resp eq_refl). congruence. }
    eexists id, _. split; [done|]. split; [apply recalculated_lookup|].
    rewrite !recalculated_records. cbn [attendance set_updatedAt set_attendance].
    cbn [attendanceRecords appended].
    pose proof (attendancePercentage_within id (attendanceRecords (db w) ++ [r]))
      as [_ Hpos].
    assert (HN : (0 < days_recorded id (attendanceRecords (db w) ++ [r]))%nat).
    { rewrite <- recordsOf_days_recorded, <- Hr, recordsOf_own, length_app.
      simpl. lia. }
    split; [exact HN|]. exact (Hpos HN).
  - intros Hreach id e He N P.
    assert (Hcons : consistent (db w')).
    { apply reachable_consistent. by eapply reach_mark. }
    destruct Hcons as [Hatt _]. specialize (Hatt id e He).
    destruct (attendancePercentage_within id (attendanceRecords (db w')))
      as [Hzero Hpos].
    fold N P in Hzero, Hpos. split.
    + intros HN. rewrite Hatt, (Hzero HN). reflexivity.
    + intros HN. destruct (Hpos HN) as [Hwithin _].
      unfold within_rounding in *. by rewrite Hatt.
Qed.

Lemma markAttendance_attendance_percentage_witness :
  let w' := (markAttendance (absent_on 900) (Some admin0) world2).2 in
  ∃ id e,
    ObjectId_from alice_id = Some id ∧
    employees (db w') !! id = Some e ∧
    let N := days_recorded id (attendanceRecords (db w')) in
    let P := days_present id (attendanceRecords (db w')) in
    (0 < N)%nat ∧
    within_rounding (attendance e) (exact_percentage P N) ∧
    (P = 0%nat → (attendance e == 0)%Q) ∧
    (P = N → (attendance e == 100)%Q).
Proof.
  intros w'.
  assert (Hrun : markAttendance (absent_on 900) (Some admin0) world2
                 = (Return marked_successfully, w'))
    by (vm_compute; reflexivity).
  exact (proj1 (markAttendance_attendance_percentage
                  (absent_on 900) (Some admin0) world2 w'
                  marked_successfully Hrun eq_refl)).
Defined.

(** ** Recalculation *)

(** C9. [updateAttendanceStats] (and with it [updateAttendancePercentage]) is
    idempotent on the stored percentage: for an existing employee both calls
    return, the attendance ledger is untouched, and the [attendance] stored
    after the second call is the one stored after the first, which is the
    percentage of the ledger whatever was stored before. *)
Theorem updateAttendanceStats_idempotent
    (id : string) (oid : ObjectId) (e : Employee) (w : World) :
  ObjectId_from id = Some oid →
  employees (db w) !! oid = Some e →
  ∃ w1 w2 e1 e2,
    updateAttendanceStats id w = (Return tt, w1) ∧
    updateAttendanceStats id w1 = (Return tt, w2) ∧
    employees (db w1) !! oid = Some e1 ∧
    employees (db w2) !! oid = Some e2 ∧
    attendance e2 = attendance e1 ∧
    attendance e1 =
      attendancePercentage (recordsOf oid (attendanceRecords (db w))) ∧
    attendanceRecords (db w2) = attendanceRecords (db w).
Proof.
  intros Hid He. rewrite (updateAttendanceStats_run _ _ _ Hid), He.
  eexists _, _, _, _. split; [reflexivity|].
  rewrite (updateAttendanceStats_run _ _ _ Hid). cbn [db].
  rewrite recalculated_lookup. split; [reflexivity|].
  cbn [db]. rewrite !recalculated_lookup. done.
Qed.

(** On the stale world 100 is stored for a ledger of one absent day: the
    first call stores 0, the second stores 0 again. *)
Lemma updateAttendanceStats_idempotent_witness :
  attendance <$> employees (db world_stale) !! alice_id = Some 100%Q ∧
  attendancePercentage
    (recordsOf alice_id (attendanceRecords (db world_stale))) = 0%Q ∧
  ∃ w1 w2 e1 e2,
    updateAttendanceStats alice_id world_stale = (Return tt, w1) ∧
    updateAttendanceStats alice_id w1 = (Return tt, w2) ∧
    employees (db w1) !! alice_id = Some e1 ∧
    employees (db w2) !! alice_id = Some e2 ∧
    attendance e2 = attendance e1 ∧
    attendance e1 =
      attendancePercentage
        (recordsOf alice_id (attendanceRecords (db world_stale))) ∧
    attendanceRecords (db w2) = attendanceRecords (db world_stale).
Proof.
  split; [reflexivity|]. split; [reflexivity|].
  exact (updateAttendanceStats_idempotent alice_id alice_id alice world_stale
           eq_refl eq_refl).
Defined.

(** ** Failing writes *)

(** C3. A [markAttendance] whose date is later than the clock at any read of
    the call (the clock does not run backwards) persists nothing: the store,
    records and employees alike, is the one before the call and the call is
    not a success; for an ADMIN caller the response is [success: false] with
    the date error [INVALID_DATE] ("Invalid date or future date not allowed")
    in its error list. *)
Theorem markAttendance_future_date
    (input : AttendanceInput) (user : option User) (w w' : World)
    (t : Z) (k : nat) (o : Outcome MutationResponse) :
  ai_date input = DateMs t →
  monotone_clock w →
  wall w (ticks w + k) < t →
  markAttendance input user w = (o, w') →
  db w' = db w ∧
  (∀ resp, o = Return resp → success resp = false) ∧
  (∀ u, user = Some u → user_role u = ADMIN →
     ∃ errs, o = Return {| success := false; mr_message := None;
                           mr_errors := Some errs |} ∧
             INVALID_DATE ∈ errs).
Proof.
  intros Hd Hmono Hfut.
  assert (Hnow : (t <=? wall w (ticks w)) = false).
  { apply Z.leb_gt. pose proof (Hmono (ticks w) (ticks w + k)%nat). lia. }
  unfold markAttendance. destruct user as [u|].
  2:{ intros [= <- <-]. repeat split; [intros; discriminate..]. }
  unfold try_catch, bind. rewrite checkRole_run.
  destruct (bool_decide _) eqn:Hrole.
  - rewrite (validateAttendanceInput_DateMs _ _ t) by done. rewrite Hnow.
    destruct (notes_too_long _); simpl; intros [= <- <-];
      (repeat split; [by intros ? [= <-]|]); intros u' Hu' Hadmin';
      eexists; (split; [reflexivity|]); set_solver.
  - simpl. intros [= <- <-]. repeat split; [by intros ? [= <-]|].
    intros u' [= <-] Hadmin. rewrite Hadmin in Hrole.
    apply bool_decide_eq_false in Hrole. set_solver.
Qed.

Lemma markAttendance_future_date_witness :
  db (markAttendance (present_on 5000) (Some admin0) world0).2 = db world0 ∧
  ∃ errs,
    (markAttendance (present_on 5000) (Some admin0) world0).1 =
      Return {| success := false; mr_message := None;
                mr_errors := Some errs |} ∧
    INVALID_DATE ∈ errs.
Proof.
  assert (Hmono : monotone_clock world0).
  { intros i j Hij. simpl. lia. }
  destruct (markAttendance_future_date (present_on 5000) (Some admin0) world0
              (markAttendance (present_on 5000) (Some admin0) world0).2
              5000 3 (markAttendance (present_on 5000) (Some admin0) world0).1
              eq_refl Hmono eq_refl eq_refl) as (Hdb & _ & Herr).
  split; [exact Hdb|]. exact (Herr admin0 eq_refl eq_refl).
Defined.

(** C4 at its failing inputs. A [markAttendance] that passes access control
    and validation (an ADMIN whose id is an object id; a date not after the
    clock, which does not run backwards; notes within 500 characters) and
    names, by a well-formed id, an employee that is not stored: nothing is
    persisted, as the claim says, but the failure comes back as the [catch]
    block's response, whose one error carries the pre-save hook's message
    "Employee not found" under the code [INTERNAL_SERVER_ERROR], the code of
    an internal failure; it is not the [NOT_FOUND] response that
    [updateEmployee] gives for a missing employee. *)
Theorem markAttendance_unknown_employee
    (input : AttendanceInput) (u : User) (w w' : World)
    (creator oid : ObjectId) (t : Z) (o : Outcome MutationResponse) :
  user_role u = ADMIN →
  ObjectId_from (user_id u) = Some creator →
  ai_date input = DateMs t →
  t ≤ wall w (ticks w) →
  monotone_clock w →
  notes_too_long (ai_notes input) = false →
  ObjectId_from (ai_employeeId input) = Some oid →
  employees (db w) !! oid = None →
  markAttendance input (Some u) w = (o, w') →
  db w' = db w ∧
  o = Return (failed_with (Error "Employee not found")) ∧
  o ≠ Return employee_not_found ∧
  kind_of_code <$> error_codes (failed_with (Error "Employee not found"))
    = [Some Internal] ∧
  kind_of_code <$> error_codes employee_not_found = [Some NotFound].
Proof.
  intros Hadmin Hcreator Hd Ht Hmono Hn Hoid He Hrun.
  assert (Hrun' : markAttendance input (Some u) w =
                  (Return (failed_with (Error "Employee not found")),
                   tick (tick (tick w)))).
  { apply (markAttendance_valid_throw _ _ _ _ creator t); try done.
    apply (AttendanceRecord_create_missing _ _ oid t); simpl; try done.
    pose proof (Hmono (ticks w) (S (ticks w))). lia. }
  rewrite Hrun' in Hrun. injection Hrun as <- <-.
  repeat split; done.
Qed.

Lemma markAttendance_unknown_employee_witness :
  employees (db world0) !! nobody_id = None ∧
  db (markAttendance unknown_employee_past_date (Some admin0) world0).2
    = db world0 ∧
  (markAttendance unknown_employee_past_date (Some admin0) world0).1
    = Return (failed_with (Error "Employee not found")).
Proof.
  assert (Hmono : monotone_clock world0).
  { intros i j Hij. simpl. lia. }
  split; [reflexivity|].
  assert (Ht : 800 ≤ wall world0 (ticks world0)) by (simpl; lia).
  destruct (markAttendance_unknown_employee unknown_employee_past_date
              admin0 world0
              (markAttendance unknown_employee_past_date (Some admin0) world0).2
              admin_id nobody_id 800
              (markAttendance unknown_employee_past_date (Some admin0) world0).1
              eq_refl eq_refl eq_refl Ht Hmono eq_refl eq_refl eq_refl eq_refl)
    as (Hdb & Hresp & _).
  split; [exact Hdb|exact Hresp].
Defined.

(** C2, as stated, fails: an ADMIN call that passes validation and repeats
    the (employee, date) pair of a stored record is answered with the
    driver's duplicate-key error under the code [INTERNAL_SERVER_ERROR], the
    code of an internal failure and the code the same resolver gives a
    failure that has nothing to do with uniqueness (here, a caller whose id
    is no object id); no error of the response is of the kind Conflict. *)
Lemma markAttendance_duplicate_counterexample :
  duplicate_key alice_id 800 (attendanceRecords (db world1)) = true ∧
  validateAttendanceInput (absent_on 800) world1 = (Return [], tick world1) ∧
  (markAttendance (absent_on 800) (Some admin0) world1).1
    = Return (failed_with (E11000 alice_id 800)) ∧
  (markAttendance (absent_on 900) (Some readme_admin) world1).1
    = Return (failed_with (Error (BSONErrorMessage "admin123"))) ∧
  error_codes (failed_with (E11000 alice_id 800))
    = error_codes (failed_with (Error (BSONErrorMessage "admin123"))) ∧
  kind_of_code <$> error_codes (failed_with (E11000 alice_id 800))
    = [Some Internal] ∧
  Some Conflict ∉ kind_of_code <$> error_codes (failed_with (E11000 alice_id 800)).
Proof.
  split; [reflexivity|]. split; [reflexivity|].
  split; [vm_compute; reflexivity|]. split; [vm_compute; reflexivity|].
  split; [reflexivity|]. split; [reflexivity|].
  intros Hin. apply list_elem_of_singleton in Hin. discriminate Hin.
Qed.

(** C2, amended. A [markAttendance] for an (employee, date) pair that already
    has a record never changes the store, so every employee's stored
    attendance is what it was, and never reports success. When the call
    passes access control and validation (an ADMIN whose id is an object id;
    a date not after the clock, which does not run backwards; notes within
    500 characters) and the employee exists, the response is the [catch]
    block's [success: false] whose one error carries the driver's
    duplicate-key message under the code [INTERNAL_SERVER_ERROR], the code of
    an internal failure. *)
Theorem markAttendance_duplicate
    (input : AttendanceInput) (user : option User) (w w' : World)
    (oid : ObjectId) (t : Z) (o : Outcome MutationResponse) :
  ObjectId_from (ai_employeeId input) = Some oid →
  ai_date input = DateMs t →
  duplicate_key oid t (attendanceRecords (db w)) = true →
  markAttendance input user w = (o, w') →
  db w' = db w ∧
  (∀ id, attendance <$> employees (db w') !! id
         = attendance <$> employees (db w) !! id) ∧
  (∀ resp, o = Return resp → success resp = false) ∧
  (∀ u creator e, user = Some u → user_role u = ADMIN →
     ObjectId_from (user_id u) = Some creator →
     t ≤ wall w (ticks w) → monotone_clock w →
     notes_too_long (ai_notes input) = false →
     employees (db w) !! oid = Some e →
     o = Return (failed_with (E11000 oid t)) ∧
     kind_of_code <$> error_codes (failed_with (E11000 oid t))
       = [Some Internal]).
Proof.
  intros Hoid Hd Hdup Hrun.
  assert (Hinv := Hrun). apply markAttendance_inv in Hinv
    as [[Hdb Hfail]|(oid' & t' & _ & _ & _ & _ & _ & _ & _ & Hoid' & Hd' & _ & Hdup' & _)];
    [|congruence].
  split; [done|]. split; [by rewrite Hdb|]. split; [done|].
  intros u creator e -> Hadmin Hcreator Ht Hmono Hn He.
  assert (Hrun' : markAttendance input (Some u) w =
                  (Return (failed_with (E11000 oid t)),
                   tick (tick (tick (tick w))))).
  { apply (markAttendance_valid_throw _ _ _ _ creator t); try done.
    apply (AttendanceRecord_create_duplicate _ _ oid t e); simpl; try done.
    - pose proof (Hmono (ticks w) (S (ticks w))). lia.
    - pose proof (Hmono (ticks w) (S (S (S (ticks w))))). lia. }
  rewrite Hrun' in Hrun. injection Hrun as <- <-. done.
Qed.

Lemma markAttendance_duplicate_witness :
  db (markAttendance (absent_on 800) (Some admin0) world1).2 = db world1 ∧
  (markAttendance (absent_on 800) (Some admin0) world1).1
    = Return (failed_with (E11000 alice_id 800)).
Proof.
  assert (Hmono : monotone_clock world1).
  { intros i j Hij. simpl. lia. }
  assert (Ht : 800 ≤ wall world1 (ticks world1)) by (simpl; lia).
  destruct (markAttendance_duplicate (absent_on 800) (Some admin0) world1
              (markAttendance (absent_on 800) (Some admin0) world1).2
              alice_id 800
              (markAttendance (absent_on 800) (Some admin0) world1).1
              eq_refl eq_refl eq_refl eq_refl) as (Hdb & _ & _ & Herr).
  split; [exact Hdb|].
  exact (proj1 (Herr admin0 admin_id alice eq_refl eq_refl eq_refl Ht Hmono
                  eq_refl eq_refl)).
Defined.

(** ** Batch loading *)

(** C5, as stated, fails: 101 distinct ids requested in one tick reach the
    store as two queries, because the loader is built with
    [maxBatchSize: 100]. *)
Lemma employeeLoader_counterexample :
  NoDup many_keys ∧
  length many_keys = 101%nat ∧
  Forall is_ObjectId many_keys ∧
  length (employeeLoader_tick many_keys (employeeLoader createDataLoaders)
            store_AC).2 = 2%nat.
Proof.
  split; [|split; [vm_compute; reflexivity|split; [|vm_compute; reflexivity]]].
  - refine (bool_decide_unpack _ _). vm_compute. exact I.
  - apply Forall_forall. intros id Hid.
    apply list_elem_of_fmap in Hid as (n & -> & Hn).
    unfold key_of.
    apply digits_is_ObjectId; [by rewrite length_app_string|].
    rewrite all_chars_app.
    apply elem_of_seq in Hn.
    assert (Hhex : ∀ k, (k < 16)%nat → is_lower_hex (hex_digit k) = true).
    { intros k Hk. do 16 (destruct k as [|k]; [reflexivity|]). lia. }
    cbn [all_chars]. rewrite !Hhex; [done|..].
    + apply Nat.mod_upper_bound. lia.
    + apply Nat.Div0.div_lt_upper_bound. lia.
Qed.

(** C5, amended. For every sequence of employee-loader requests issued in
    one tick on a request's fresh loader, for ids in the form an object id
    prints as, every requester gets, in request order, the stored employee
    of its id or the absent marker, and the store is asked about each
    distinct id once, in order of first request: in batches of which none is
    empty, none holds more than 100 ids and all but the last hold exactly
    100, one query each; so a non-empty sequence with at most 100 distinct
    ids makes exactly one query, over the distinct ids. *)
Theorem employeeLoader_batches (ids : list string) (s : Store) :
  Forall is_ObjectId ids →
  ∃ batches,
    employeeLoader_tick ids (employeeLoader createDataLoaders) s =
      ((fun id => Return (emp s id)) <$> ids, FindEmployeesIn <$> batches) ∧
    concat batches = distinct_keys ids ∧
    NoDup (distinct_keys ids) ∧
    (∀ id, id ∈ distinct_keys ids ↔ id ∈ ids) ∧
    Forall (fun b => b ≠ [] ∧ (length b ≤ 100)%nat) batches ∧
    (∀ i b, batches !! i = Some b → (S i < length batches)%nat →
            length b = 100%nat) ∧
    (ids ≠ [] → (length (distinct_keys ids) ≤ 100)%nat →
     batches = [distinct_keys ids]).
Proof.
  intros Hids. unfold employeeLoader_tick. simpl.
  destruct (loadAll_fresh ids maxBatchSize)
    as (ps & l' & -> & Hps & Hkeys & Hconcat & Hall & Hfull);
    [unfold maxBatchSize; lia|].
  assert (Hbatch : ∀ ks, ks ∈ dl_batches l' →
                         employeeBatch s ks
                         = ([FindEmployeesIn ks], Return (emp s <$> ks))).
  { intros ks Hks. apply employeeBatch_spec, Forall_forall. intros k Hk.
    rewrite Forall_forall in Hids. by eapply Hids, Hkeys. }
  exists (dispatched l'). split; [f_equal|].
  - assert (Hsettle : ∀ ids' ps',
        Forall2 (fun id p => promise_of l' p id) ids' ps' →
        settle (fun ks => (employeeBatch s ks).2) l' <$> ps'
        = (fun id => Return (emp s id)) <$> ids').
    { induction 1 as [|id p ids' ps' Hp _ IH]; [done|].
      rewrite !fmap_cons, IH. f_equal.
      apply (settle_promise_of _ (emp s)); [|done].
      intros ks Hks. by rewrite Hbatch. }
    by apply Hsettle.
  - assert (Hsub : ∀ bs, (∀ ks, ks ∈ bs → ks ∈ dl_batches l') →
        concat ((fun ks => (employeeBatch s ks).1) <$> bs)
        = FindEmployeesIn <$> bs).
    { induction bs as [|b bs IH]; intros Hbs; [done|].
      rewrite !fmap_cons. simpl. rewrite Hbatch by (apply Hbs; left).
      simpl. f_equal. apply IH. intros ks Hks. apply Hbs. by right. }
    apply Hsub. intros ks Hks.
    by apply list_elem_of_filter in Hks as [_ Hks].
  - split; [done|]. split; [apply distinct_keys_NoDup|].
    split; [apply distinct_keys_elem_of|]. split; [done|]. split; [done|].
    intros Hne Hfit. rewrite <- Hconcat in Hfit |- *.
    apply batches_one with (m := maxBatchSize); try done.
    rewrite Hconcat. by apply distinct_keys_nonempty.
Qed.

(** The specification's example: ids [A, B, A, C] with no employee B. *)
Lemma employeeLoader_batches_witness :
  employees store_AC !! id_B = None ∧
  employeeLoader_tick [id_A; id_B; id_A; id_C]
    (employeeLoader createDataLoaders) store_AC =
  ([Return (emp store_AC id_A); Return None; Return (emp store_AC id_A);
    Return (emp store_AC id_C)],
   [FindEmployeesIn [id_A; id_B; id_C]]).
Proof.
  split; [reflexivity|].
  assert (Hids : Forall is_ObjectId [id_A; id_B; id_A; id_C])
    by (repeat constructor).
  destruct (employeeLoader_batches [id_A; id_B; id_A; id_C] store_AC Hids)
    as (batches & Htick & _ & _ & _ & _ & _ & Hone).
  rewrite Htick.
  rewrite (Hone ltac:(discriminate) ltac:(vm_compute; lia)).
  reflexivity.
Defined.

(** ** The attendance ledger query *)




(** ** Pagination *)

(** C6, as stated, fails: [(page - 1) * pageSize] is a product of doubles.
    For the largest page and page size an [Int] argument can carry the exact
    product is above [2^53] and no double; the resolver skips the nearest
    one. *)
Lemma employees_pagination_counterexample :
  a_page last_page = Some 2147483647 ∧
  a_pageSize last_page = Some 2147483647 ∧
  (2147483647 - 1) * 2147483647 = 4611686011984936962 ∧
  employees_skip last_page = 4611686011984936960.
Proof. repeat split; vm_compute; reflexivity. Qed.

(** C6, amended. For an authenticated caller, 1-indexed page [p] and page
    size [s ≥ 1] with [(p - 1) × s ≤ 2^53], a name filter (if any) that the
    store can compile, and fewer than [2^53] matching documents, the
    [employees] query skips [(p - 1) × s] of the sorted matching documents
    and returns at most [s] of the rest, and its page info has
    [totalPages = ceil(totalCount / s)] (the least [n] with
    [totalCount ≤ s × n]), [hasNextPage = (p < totalPages)],
    [hasPreviousPage = (p > 1)], [currentPage = p] and [totalCount] the
    number of matching documents. *)
Theorem employees_pagination
    (regex_test : string → string → string → bool)
    (regex_compiles : string → bool)
    (args : EmployeesArgs) (u : User) (s : Store) (p sz : Z) :
  a_page args = Some p →
  a_pageSize args = Some sz →
  1 ≤ p →
  1 ≤ sz →
  (p - 1) * sz ≤ 2 ^ 53 →
  (∀ f n, a_filter args = Some f → f_name f = Some n →
          regex_compiles n = true) →
  let query := employees_query (a_filter args) in
  let found := store_sort (employees_sortObj (a_sort args))
                 (matching regex_test query s) in
  let total := Z.of_nat (length (matching regex_test query s)) in
  total < 2 ^ 53 →
  ∃ pages,
    employees_resolver regex_test regex_compiles args (Some u) s =
      Return {| edges := toGraphQLEmployees
                           (take (Z.to_nat sz)
                              (drop (Z.to_nat ((p - 1) * sz)) found));
                pageInfo := {| hasNextPage := p <? pages;
                               hasPreviousPage := 1 <? p;
                               totalPages := Finite pages;
                               totalCount := total;
                               currentPage := p |} |} ∧
    employees_skip args = (p - 1) * sz ∧
    sz * (pages - 1) < total ≤ sz * pages.
Proof.
  intros Hp Hsz Hp1 Hsz1 Hskip Hname query found total Htotal.
  exists (Qceiling (inject_Z total / inject_Z sz)).
  assert (Hskip' : employees_skip args = (p - 1) * sz).
  { unfold employees_skip, employees_page, employees_pageSize, Number_mul.
    rewrite Hp, Hsz. simpl.
    rewrite (Qfloor_comp _ (round_double (inject_Z ((p - 1) * sz)))).
    - apply round_double_Z. nia.
    - unfold round_double. by rewrite <- inject_Z_mult. }
  split; [|split; [exact Hskip'|]].
  - unfold employees_resolver. rewrite checkRole_any, Hskip'.
    unfold employees_page, employees_pageSize. rewrite Hp, Hsz. simpl.
    unfold countDocuments, Employee_find.
    rewrite employees_query_accepted by done.
    unfold Math_ceil_div, limited, Number_div.
    fold query. fold total.
    rewrite Qceiling_round_double_div by lia.
    destruct (sz =? 0) eqn:Hz; [apply Z.eqb_eq in Hz; lia|].
    destruct ((p - 1) * sz <? 0) eqn:Hneg; [apply Z.ltb_lt in Hneg; nia|].
    rewrite Z.abs_eq by lia. reflexivity.
  - apply Qceiling_div_bounds. lia.
Qed.

(** The specification's example: filter [{minAge: 20, maxAge: 30}], page 2,
    page size 10, 25 matches. *)
Lemma employees_pagination_witness :
  Z.of_nat (length (matching any_regex (employees_query (Some twenties))
                      store25)) = 25 ∧
  employees_skip page2_of_twenties = 10 ∧
  ∃ edges,
    employees_resolver any_regex any_pattern page2_of_twenties (Some admin0)
      store25 =
      Return {| edges := edges;
                pageInfo := {| hasNextPage := true;
                               hasPreviousPage := true;
                               totalPages := Finite 3;
                               totalCount := 25;
                               currentPage := 2 |} |}.
Proof.
  assert (Htotal : Z.of_nat (length (matching any_regex
                                       (employees_query (Some twenties))
                                       store25)) = 25)
    by (vm_compute; reflexivity).
  destruct (employees_pagination any_regex any_pattern page2_of_twenties
              admin0 store25 2 10 eq_refl eq_refl ltac:(lia) ltac:(lia)
              ltac:(lia) ltac:(reflexivity))
    as (pages & Hres & Hskip & Hpages).
  { change (employees_query (a_filter page2_of_twenties))
      with (employees_query (Some twenties)).
    rewrite Htotal. lia. }
  split; [exact Htotal|]. split; [exact Hskip|].
  change (employees_query (a_filter page2_of_twenties))
    with (employees_query (Some twenties)) in *.
  rewrite Htotal in *.
  assert (pages = 3) as -> by lia.
  eexists. exact Hres.
Defined.

(** ** Sorting *)

(** Every [EmployeeSort] value names one of the five fields and a
    direction, and the resolver gets the direction right. *)
Lemma employees_sortObj_direction (v : EmployeeSort) :
  ∃ key, employees_sortObj (Some v) = [(key, specified_sort_direction v)].
Proof. destruct v; eexists; reflexivity. Qed.

(** Without a sort argument the store sorts by [createdAt], newest first. *)
Lemma employees_sortObj_default :
  employees_sortObj None = [("createdAt", -1)].
Proof. reflexivity. Qed.

(** But the key it sorts by is the lower-cased enum value as a whole, which
    is not the field and is no path of an employee document, for every value
    of the enum. *)
Lemma employees_sortObj_key (v : EmployeeSort) :
  ∃ key, employees_sortObj (Some v) = [(key, specified_sort_direction v)] ∧
         key = toLowerCase (EmployeeSort_value v) ∧
         key ≠ specified_sort_field v ∧
         path_lookup key employee_paths = None ∧
         is_Some (path_lookup (specified_sort_field v) employee_paths).
Proof.
  destruct v; eexists; (split; [reflexivity|]); (split; [reflexivity|]);
    (split; [discriminate|]); (split; [reflexivity|]); eexists; reflexivity.
Qed.

(** C7 at [sort = NAME_ASC]: the resolver's sort object is
    [{ name_asc: 1 }]; documents found in the order Bob, Alice stay in that
    order, where a sort by [name] ascending puts Alice first. *)
Theorem employees_sort_NAME_ASC :
  employees_sortObj (Some NAME_ASC) = [("name_asc", 1)] ∧
  path_lookup "name_asc" employee_paths = None ∧
  store_sort (employees_sortObj (Some NAME_ASC)) [("1", bob); ("2", alice)]
    = [("1", bob); ("2", alice)] ∧
  store_sort [(specified_sort_field NAME_ASC, specified_sort_direction NAME_ASC)]
    [("1", bob); ("2", alice)]
    = [("2", alice); ("1", bob)].
Proof. repeat split. Qed.

(** ** Filtering *)

(** C8 at [filter = { maxAttendance: 0 }]: zero is falsy, so the resolver
    builds the empty query, the one it builds without any filter; an employee
    with attendance 50 matches it, although 50 is above the supplied
    maximum. *)
Theorem employees_query_maxAttendance_zero
    (regex_test : string → string → string → bool) :
  employees_query (Some never_attended) = ∅ ∧
  employees_query (Some never_attended) = employees_query None ∧
  matches regex_test (employees_query (Some never_attended)) ("b", bob) = true ∧
  specified_filter never_attended bob = false.
Proof. repeat split. Qed.

(** * Further properties *)

(** ** The schema's bounds on [attendance] *)

Lemma percentage_bounds (P N : nat) :
  (0 < N)%nat → Z.of_nat N < 2 ^ 32 → (P ≤ N)%nat →
  let stored := Number_mul (Number_div (inject_Z (Z.of_nat P))
                                       (inject_Z (Z.of_nat N))) 100 in
  (0 <= stored)%Q ∧ (stored <= 100)%Q.
Proof.
  intros HN Hmax HP stored.
  destruct (percentage_within P N HN HP) as (_ & Hzero & Hfull).
  fold stored in Hzero, Hfull.
  destruct (decide (P = 0%nat)) as [HP0|HP0]; [rewrite (Hzero HP0); split; lra|].
  destruct (decide (P = N)) as [HPN|HPN]; [rewrite (Hfull HPN); split; lra|].
  unfold stored, Number_mul, Number_div.
  set (p := inject_Z (Z.of_nat P)). set (n := inject_Z (Z.of_nat N)).
  assert (Hn : (0 < n)%Q) by (unfold n; rewrite <- (Zlt_Qlt 0); lia).
  assert (Hp : (0 < p)%Q) by (unfold p; rewrite <- (Zlt_Qlt 0); lia).
  assert (Hpn : (p + 1 <= n)%Q).
  { unfold p, n. change 1%Q with (inject_Z 1).
    rewrite <- inject_Z_plus, <- Zle_Qle. lia. }
  assert (Hn32 : (n <= 4294967296)%Q).
  { unfold n. change 4294967296%Q with (inject_Z (2 ^ 32)).
    rewrite <- Zle_Qle. lia. }
  set (x1 := (p / n)%Q).
  assert (Hx1n : (x1 * n == p)%Q) by (unfold x1; field; lra).
  assert (Hx1 : (0 < x1)%Q) by (unfold x1; apply Qlt_shift_div_l; lra).
  assert (Hx1' : (x1 <= 1 - (1 # 4294967296))%Q) by nra.
  pose proof (round_double_error x1 Hx1) as Hr1.
  set (r1 := round_double x1) in *.
  change (1 # 2 ^ 53)%Q with (1 # 9007199254740992)%Q in Hr1.
  assert (Hx2 : (0 < r1 * 100)%Q) by lra.
  pose proof (round_double_error _ Hx2) as Hr2.
  set (r2 := round_double (r1 * 100)) in *.
  change (1 # 2 ^ 53)%Q with (1 # 9007199254740992)%Q in Hr2.
  split; lra.
Qed.

(** The percentage the engine computes from a ledger (an array, so of fewer
    than [2^32] records) lies between 0 and 100: the schema's [min] and
    [max] validators on [attendance] never reject the engine's write. *)
Theorem attendancePercentage_bounds (rs : list AttendanceRecord) :
  Z.of_nat (length rs) < 2 ^ 32 →
  (0 <= attendancePercentage rs)%Q ∧ (attendancePercentage rs <= 100)%Q.
Proof.
  intros Hmax. unfold attendancePercentage.
  destruct (length rs =? 0)%nat eqn:Hn; [split; discriminate|].
  apply Nat.eqb_neq in Hn.
  apply percentage_bounds; [lia|done|]. unfold presentDays.
  apply length_filter.
Qed.

Lemma attendancePercentage_bounds_witness :
  (0 <= attendancePercentage [day 700 true; day 800 false; day 900 false])%Q ∧
  (attendancePercentage [day 700 true; day 800 false; day 900 false] <= 100)%Q.
Proof.
  apply (attendancePercentage_bounds
           [day 700 true; day 800 false; day 900 false]).
  simpl. lia.
Defined.

(** ** What a successful write changes *)



(** ** Invariants of the stores the API reaches *)

Lemma duplicate_key_false (id : ObjectId) (d : Z) (rs : list AttendanceRecord) :
  duplicate_key id d rs = false →
  (id, d) ∉ (fun r => (employeeId r, date r)) <$> rs.
Proof.
  unfold duplicate_key. induction rs as [|r rs IH].
  - intros _ Hin. by inv Hin.
  - cbn [existsb]. intros [Hr Hrs]%orb_false_iff. rewrite fmap_cons.
    intros [Heq|Hin]%elem_of_cons; [|by apply IH].
    injection Heq as -> ->.
    by rewrite String.eqb_refl, Z.eqb_refl in Hr.
Qed.

Lemma markAttendance_unique_pairs input user w o w' :
  unique_pairs (db w) →
  markAttendance input user w = (o, w') →
  unique_pairs (db w').
Proof.
  intros Huniq Hrun.
  apply markAttendance_inv in Hrun
    as [[-> _]|(oid & t & e & e1 & r & t1 & t2 & t3 & t4 & _ & _ & _ & Hdup & Hr & Hdate & _ & _ & ->)];
    [done|].
  unfold unique_pairs. rewrite !recalculated_records. simpl.
  rewrite fmap_app. simpl. apply NoDup_app. split; [done|].
  split; [|apply NoDup_singleton].
  intros p Hp ->%list_elem_of_singleton. rewrite Hr, Hdate in Hp.
  by apply duplicate_key_false in Hdup.
Qed.

Lemma markAttendance_ids input user w o w' :
  (∀ r, r ∈ attendanceRecords (db w) → is_ObjectId (employeeId r)) →
  markAttendance input user w = (o, w') →
  ∀ r, r ∈ attendanceRecords (db w') → is_ObjectId (employeeId r).
Proof.
  intros Hids Hrun.
  apply markAttendance_inv in Hrun
    as [[-> _]|(oid & t & e & e1 & r & t1 & t2 & t3 & t4 & Hoid & _ & _ & _ & Hr & _ & _ & _ & ->)];
    [done|].
  intros r'. rewrite !recalculated_records. simpl.
  intros [Hin|Hin%list_elem_of_singleton]%elem_of_app; [by apply Hids|].
  subst r'. rewrite Hr. by eapply ObjectId_from_is_ObjectId.
Qed.

(** In every store the API can reach the ledger is well formed: no two
    attendance records share their (employee, date) pair, and every record
    belongs to a stored employee, under an id in the form an object id
    prints as. *)
Theorem reachable_ledger_integrity (s : Store) :
  reachable s →
  unique_pairs s ∧
  (∀ r, r ∈ attendanceRecords s →
        is_Some (employees s !! employeeId r) ∧ is_ObjectId (employeeId r)).
Proof.
  intros Hreach.
  assert (Hrefs := proj2 (reachable_consistent s Hreach)).
  assert (unique_pairs s ∧
          ∀ r, r ∈ attendanceRecords s → is_ObjectId (employeeId r))
    as [Huniq Hids].
  { clear Hrefs.
    induction Hreach as [| | |w input user o w' _ [IH1 IH2] Hrun]; try done.
    - split; [apply NoDup_nil_2|]. intros r Hr. by inv Hr.
    - split; [by eapply markAttendance_unique_pairs|].
      by eapply markAttendance_ids. }
  split; [done|]. intros r Hr. split; [by apply Hrefs|by apply Hids].
Qed.

Lemma reachable_after_markAttendance input user w :
  reachable (db w) → reachable (db (markAttendance input user w).2).
Proof.
  intros Hreach.
  apply (reach_mark w input user (markAttendance input user w).1); [done|].
  apply surjective_pairing.
Qed.

Lemma reachable_world0 : reachable (db world0).
Proof.
  exact (reach_create _ alice_id alice reach_empty eq_refl eq_refl eq_refl).
Qed.

Lemma reachable_ledger_integrity_witness :
  unique_pairs
    (db (markAttendance (absent_on 900) (Some admin0)
           (markAttendance (present_on 800) (Some admin0) world0).2).2).
Proof.
  refine (proj1 (reachable_ledger_integrity _ _)).
  apply reachable_after_markAttendance, reachable_after_markAttendance.
  exact reachable_world0.
Defined.

(** ** Who may write *)

(** A caller who is authenticated but not an ADMIN gets no transport-level
    failure from [markAttendance]: the role check throws inside the
    resolver's [try], so the answer is the [catch] block's [success: false]
    with the message "Not authorized" under [INTERNAL_SERVER_ERROR]; nothing
    is read from the clock and nothing changes. A caller without identity
    gets the thrown UNAUTHENTICATED error. *)
Theorem markAttendance_unauthorized (input : AttendanceInput) (w : World) :
  markAttendance input None w =
    (Throw (GraphQLError "Not authenticated" (Some "UNAUTHENTICATED")), w) ∧
  ∀ u, user_role u ≠ ADMIN →
       markAttendance input (Some u) w =
       (Return (failed_with (createAuthError "Not authorized" "FORBIDDEN")), w).
Proof.
  split; [done|]. intros u Hrole.
  unfold markAttendance, try_catch, bind. rewrite checkRole_run.
  rewrite bool_decide_eq_false_2; [done|]. set_solver.
Qed.

Lemma markAttendance_unauthorized_witness :
  markAttendance (present_on 800) (Some an_employee) world0 =
  (Return (failed_with (createAuthError "Not authorized" "FORBIDDEN")), world0).
Proof.
  apply (proj2 (markAttendance_unauthorized (present_on 800) world0)
           an_employee).
  discriminate.
Defined.

(** An ADMIN whose id is no object id string (such as the "admin123" of the
    README's token request) cannot mark attendance: on an input that passes
    validation, [new Types.ObjectId(context.user.id)] throws before anything
    is written, and the answer is the [catch] block's [success: false] with
    the constructor's error. *)
Theorem markAttendance_malformed_caller
    (input : AttendanceInput) (u : User) (w : World) (t : Z) :
  user_role u = ADMIN →
  ObjectId_from (user_id u) = None →
  ai_date input = DateMs t →
  t ≤ wall w (ticks w) →
  notes_too_long (ai_notes input) = false →
  markAttendance input (Some u) w =
  (Return (failed_with (Error (BSONErrorMessage (user_id u)))), tick w).
Proof.
  intros Hadmin Hid Hd Ht Hn.
  unfold markAttendance, try_catch, bind. rewrite checkRole_run, Hadmin.
  rewrite bool_decide_eq_true_2 by set_solver.
  rewrite (validateAttendanceInput_DateMs _ _ t) by done.
  apply Z.leb_le in Ht. rewrite Ht, Hn. simpl.
  unfold lift, new_ObjectId. by rewrite Hid.
Qed.

Lemma markAttendance_malformed_caller_witness :
  markAttendance (present_on 800) (Some readme_admin) world0 =
  (Return (failed_with (Error (BSONErrorMessage "admin123"))), tick world0).
Proof.
  apply (markAttendance_malformed_caller (present_on 800) readme_admin world0
           800); try reflexivity.
  simpl. lia.
Defined.

(** ** The recalculation statics *)



(** ** Attendance statistics *)






(** ** Ids the loaders cannot use *)

(** When the ids requested in one tick fit one batch and one of them is no
    object id string, every requester of the tick is rejected with the
    constructor's error for such an id, those who asked for a well-formed
    id included, and the store receives no query. *)
Theorem employeeLoader_malformed_id (ids : list string) (s : Store) :
  (length (distinct_keys ids) ≤ 100)%nat →
  Exists (fun id => ObjectId_from id = None) ids →
  ∃ bad,
    bad ∈ ids ∧ ObjectId_from bad = None ∧
    employeeLoader_tick ids (employeeLoader createDataLoaders) s =
      ((fun _ => Throw (Error (BSONErrorMessage bad))) <$> ids, []).
Proof.
  intros Hfit Hbad. unfold employeeLoader_tick. simpl.
  destruct (loadAll_fresh ids maxBatchSize)
    as (ps & l' & -> & Hps & Hkeys & Hconcat & Hall & Hfull);
    [unfold maxBatchSize; lia|].
  assert (Hne : ids ≠ []) by (intros ->; by inv Hbad).
  assert (Hone : dispatched l' = [distinct_keys ids]).
  { rewrite <- Hconcat. apply batches_one with (m := maxBatchSize); try done.
    - rewrite Hconcat. by apply distinct_keys_nonempty.
    - by rewrite Hconcat. }
  destruct (employeeBatch_malformed s (distinct_keys ids))
    as (bad & Hin & Hnone & Hbatch).
  { apply Exists_exists in Hbad as (x & Hx & Hxn). apply Exists_exists.
    exists x. split; [by apply distinct_keys_elem_of|done]. }
  exists bad. split; [by apply distinct_keys_elem_of|]. split; [done|].
  rewrite Hone. simpl. rewrite Hbatch. simpl. f_equal.
  assert (Hsettle : ∀ ids' ps',
      Forall2 (fun id p => promise_of l' p id) ids' ps' →
      settle (fun ks => (employeeBatch s ks).2) l' <$> ps'
      = (fun _ => Throw (Error (BSONErrorMessage bad))) <$> ids').
  { induction 1 as [|id p ids' ps' (b & Hb & Hk) _ IH]; [done|].
    rewrite !fmap_cons, IH. f_equal. unfold settle. rewrite Hb.
    assert (Hdisp : b ∈ dispatched l').
    { apply list_elem_of_filter. split; [by intros ->|].
      by eapply list_elem_of_lookup_2. }
    rewrite Hone in Hdisp. apply list_elem_of_singleton in Hdisp as ->.
    by rewrite Hbatch. }
  by apply Hsettle.
Qed.

Lemma employeeLoader_malformed_id_witness :
  ∃ bad,
    bad ∈ [id_A; "admin123"] ∧ ObjectId_from bad = None ∧
    employeeLoader_tick [id_A; "admin123"]
      (employeeLoader createDataLoaders) store_AC =
      ((fun _ => Throw (Error (BSONErrorMessage bad))) <$> [id_A; "admin123"],
       []).
Proof.
  apply (employeeLoader_malformed_id [id_A; "admin123"] store_AC).
  - vm_compute. lia.
  - right. left. reflexivity.
Defined.

Lemma employeeBatch_other_spelling (id : string) (oid : ObjectId) (s : Store) :
  ObjectId_from id = Some oid →
  employees s !! id = None →
  employeeBatch s [id] = ([FindEmployeesIn [oid]], Return [None]).
Proof.
  intros Hid Hnone. unfold employeeBatch, Employee_find_in. simpl.
  unfold new_ObjectId. rewrite Hid. rewrite employee_entries_stored.
  do 3 f_equal. rewrite js_Map_list_to_map.
  apply not_elem_of_list_to_map_1.
  rewrite fmap_reverse, elem_of_reverse, <- list_fmap_compose.
  intros ([id' e] & -> & Hin)%list_elem_of_fmap.
  apply list_elem_of_filter in Hin as [_ Hin].
  apply elem_of_map_to_list in Hin. simpl in Hnone. congruence.
Qed.

(** The employee loader finds an employee under one spelling of its id
    only. An id the constructor accepts is looked up in the store in its
    canonical form, but the answer is read from the result under the
    requested string: for a spelling no stored [_id] prints as (upper-case
    digits, say) the requester gets the absent marker, whether or not the
    store holds the employee. *)
Theorem employeeLoader_other_spelling
    (id : string) (oid : ObjectId) (s : Store) :
  ObjectId_from id = Some oid →
  employees s !! id = None →
  employeeLoader_tick [id] (employeeLoader createDataLoaders) s =
    ([Return None], [FindEmployeesIn [oid]]).
Proof.
  intros Hid Hnone.
  assert (Hbatch := employeeBatch_other_spelling id oid s Hid Hnone).
  unfold employeeLoader_tick, settle. cbn -[employeeBatch].
  rewrite lookup_empty. cbn -[employeeBatch].
  rewrite Hbatch. rewrite decide_True by done.
  cbn -[employeeBatch]. by rewrite Hbatch.
Qed.

Lemma employeeLoader_other_spelling_witness :
  is_Some (employees (db world0) !! alice_id) ∧
  employeeLoader_tick [alice_id_upper] (employeeLoader createDataLoaders)
    (db world0) =
    ([Return None], [FindEmployeesIn [alice_id]]).
Proof.
  split; [by eexists|].
  apply (employeeLoader_other_spelling alice_id_upper alice_id (db world0));
    reflexivity.
Defined.




(** ** Who may read a ledger *)

(** [employeeAttendance] refuses a caller without identity with
    UNAUTHENTICATED, and an EMPLOYEE who asks for another id than their own
    with the message "Not authorized" and no code, without a query to the
    store; an ADMIN, and an EMPLOYEE asking for their own id, pass the
    check. *)
Theorem employeeAttendance_access (args : EmployeeAttendanceArgs) (s : Store) :
  employeeAttendance args None s
    = Throw (GraphQLError "Not authenticated" (Some "UNAUTHENTICATED")) ∧
  (∀ u, user_role u = EMPLOYEE → user_id u ≠ ea_id args →
        employeeAttendance args (Some u) s
        = Throw (GraphQLError "Not authorized" None)) ∧
  (∀ u, user_role u = ADMIN ∨ user_id u = ea_id args →
        canAccessEmployeeData (Some u) (ea_id args) = true).
Proof.
  split; [done|]. split.
  - intros u Hrole Hid. unfold employeeAttendance, canAccessEmployeeData.
    rewrite Hrole. by rewrite bool_decide_eq_false_2.
  - intros u [Hrole|Hid]; unfold canAccessEmployeeData.
    + by rewrite Hrole.
    + destruct (user_role u); [done|]. by rewrite bool_decide_eq_true_2.
Qed.

Lemma employeeAttendance_access_witness :
  employeeAttendance {| ea_id := nobody_id; ea_dateRange := None |}
    (Some an_employee) store_ledger
  = Throw (GraphQLError "Not authorized" None).
Proof.
  apply (proj1 (proj2 (employeeAttendance_access
                         {| ea_id := nobody_id; ea_dateRange := None |}
                         store_ledger)) an_employee);
    [reflexivity|discriminate].
Defined.

(** ** Requests the store rejects *)

Lemma set_when_rejects_only {A} (regex_compiles : string → bool) (n : string)
    (path : string) (x : option A) (truthy : A → bool)
    (condition : A → gmap string Condition → Condition)
    (query : gmap string Condition) :
  rejects_only regex_compiles n query →
  (rejects_only regex_compiles n query →
   ∀ a pattern, x = Some a → truthy a = true →
     invalid_regex regex_compiles (condition a query) = Some pattern →
     pattern = n) →
  rejects_only regex_compiles n (set_when path x truthy condition query).
Proof.
  intros Hquery Hnew p c pattern. unfold set_when.
  destruct x as [a|]; [|apply Hquery].
  destruct (truthy a) eqn:Ha; [|apply Hquery].
  destruct (decide (path = p)) as [<-|Hne].
  - rewrite lookup_insert_eq. intros [= <-]. by apply Hnew.
  - rewrite lookup_insert_ne by done. apply Hquery.
Qed.

Lemma spread_rejects_only (regex_compiles : string → bool) (n op : string)
    (v : JsValue) (query : gmap string Condition) (path pattern : string) :
  op ≠ "$regex" →
  rejects_only regex_compiles n query →
  invalid_regex regex_compiles
    (Operators (<[op := v]> (spread (query !! path)))) = Some pattern →
  pattern = n.
Proof.
  intros Hop Hq. unfold invalid_regex. rewrite lookup_insert_ne by done.
  destruct (query !! path) as [[w|ops]|] eqn:Hc; simpl;
    rewrite ?lookup_empty; try done.
  exact (Hq path (Operators ops) pattern Hc).
Qed.

Lemma query_error_name (regex_compiles : string → bool)
    (f : EmployeeFilter) (n : string) :
  f_name f = Some n →
  truthy_string n = true →
  regex_compiles n = false →
  query_error regex_compiles (employees_query (Some f))
    = Some (Error (RegexErrorMessage n)).
Proof.
  intros Hn Htruthy Hbad.
  set (query := employees_query (Some f)).
  assert (Hname : query !! "name"
                  = Some (Operators {[ "$regex" := VString n;
                                       "$options" := VString "i" ]})).
  { unfold query, employees_query.
    rewrite !set_when_lookup_ne by done.
    by rewrite set_when_lookup, Hn, Htruthy. }
  assert (Honly : rejects_only regex_compiles n query).
  { unfold query, employees_query.
    repeat (apply set_when_rejects_only;
            [|intros Hq a pattern Ha Ht;
              first [ discriminate
                    | by apply spread_rejects_only
                    | idtac ]]).
    - intros p c pattern. by rewrite lookup_empty.
    - unfold invalid_regex. rewrite lookup_insert_eq.
      rewrite Hn in Ha. injection Ha as <-. rewrite Hbad. by intros [= <-]. }
  unfold query_error.
  destruct (omap _ _) as [|pattern rest] eqn:Hl.
  - assert (Hin : n ∈ omap (fun pc : string * Condition =>
                              invalid_regex regex_compiles pc.2)
                           (map_to_list query)).
    { apply list_elem_of_omap. eexists ("name", _). split.
      - apply elem_of_map_to_list. exact Hname.
      - simpl. unfold invalid_regex. rewrite lookup_insert_eq. by rewrite Hbad. }
    fold query in Hl. rewrite Hl in Hin. by inv Hin.
  - assert (Hin : pattern ∈ omap (fun pc : string * Condition =>
                                    invalid_regex regex_compiles pc.2)
                                 (map_to_list query)).
    { fold query in Hl. rewrite Hl. by left. }
    apply list_elem_of_omap in Hin as ([p c] & Hpc & Hinv).
    apply elem_of_map_to_list in Hpc.
    by rewrite (Honly p c pattern Hpc Hinv).
Qed.

(** The name filter is handed to the store as a regular expression, not as
    a substring: a non-empty name the store cannot compile (an unbalanced
    parenthesis, say) makes the [employees] query fail, for every
    authenticated caller, store, sort and page, with the store's error
    rethrown as a [GraphQLError] without a code. *)
Theorem employees_invalid_name_filter
    (regex_test : string → string → string → bool)
    (regex_compiles : string → bool)
    (args : EmployeesArgs) (u : User) (s : Store)
    (f : EmployeeFilter) (n : string) :
  a_filter args = Some f →
  f_name f = Some n →
  n ≠ "" →
  regex_compiles n = false →
  employees_resolver regex_test regex_compiles args (Some u) s
    = Throw (GraphQLError (RegexErrorMessage n) None).
Proof.
  intros Hf Hn Hne Hbad. unfold employees_resolver.
  rewrite checkRole_any. unfold countDocuments. rewrite Hf.
  rewrite (query_error_name regex_compiles f n); [done|done| |done].
  unfold truthy_string. apply negb_true_iff, String.eqb_neq. done.
Qed.

Lemma employees_invalid_name_filter_witness :
  employees_resolver any_regex no_paren
    {| a_filter := Some named_paren; a_sort := None; a_page := None;
       a_pageSize := None |} (Some admin0) (db world0)
    = Throw (GraphQLError (RegexErrorMessage "(") None).
Proof.
  apply (employees_invalid_name_filter any_regex no_paren _ admin0 (db world0)
           named_paren "("); [reflexivity|reflexivity|discriminate|reflexivity].
Defined.

Lemma round_double_Z_neg (n : Z) :
  0 < n ≤ 2 ^ 53 → Qfloor (round_double (inject_Z (- n))) = - n.
Proof.
  intros Hn. destruct (decide (n = 2 ^ 53)) as [->|Hne].
  { vm_compute. reflexivity. }
  destruct n as [|p|p]; [lia| |lia].
  assert (Hpos : (round_double (inject_Z (Z.pos p)) == inject_Z (Z.pos p))%Q).
  { apply round_double_exact; [reflexivity|lia]. }
  unfold round_double in Hpos |- *. simpl in Hpos |- *.
  rewrite Qred_correct in Hpos.
  rewrite (Qfloor_comp _ (inject_Z (Z.neg p))); [apply Qfloor_Z|].
  rewrite Qred_correct.
  change (- (Z.neg p # 1))%Q with (inject_Z (Z.pos p)).
  rewrite Hpos. reflexivity.
Qed.

(** Page numbers start at 1 and nothing checks them: for [page: 0] and a
    page size [sz ≥ 1] the resolver asks the store to skip [-sz] documents,
    which the store rejects, so the query fails with the store's error
    rethrown as a [GraphQLError] without a code, whatever the filter
    matches. *)
Theorem employees_page_zero
    (regex_test : string → string → string → bool)
    (regex_compiles : string → bool)
    (args : EmployeesArgs) (u : User) (s : Store) (sz : Z) :
  a_page args = Some 0 →
  a_pageSize args = Some sz →
  1 ≤ sz ≤ 2 ^ 53 →
  (∀ f n, a_filter args = Some f → f_name f = Some n →
          regex_compiles n = true) →
  employees_skip args = - sz ∧
  employees_resolver regex_test regex_compiles args (Some u) s
    = Throw (GraphQLError (SkipErrorMessage (- sz)) None).
Proof.
  intros Hp Hsz Hbound Hname.
  assert (Hskip : employees_skip args = - sz).
  { unfold employees_skip, employees_page, employees_pageSize, Number_mul.
    rewrite Hp, Hsz. simpl.
    rewrite (Qfloor_comp _ (round_double (inject_Z (- sz)))).
    - apply round_double_Z_neg. lia.
    - unfold round_double. rewrite <- inject_Z_mult.
      by replace ((0 - 1) * sz) with (- sz) by lia. }
  split; [done|].
  unfold employees_resolver. rewrite checkRole_any, Hskip.
  unfold countDocuments, Employee_find.
  rewrite employees_query_accepted by done.
  destruct (- sz <? 0) eqn:Hneg; [done|]. apply Z.ltb_ge in Hneg. lia.
Qed.

Lemma employees_page_zero_witness :
  employees_skip page_zero = -10 ∧
  employees_resolver any_regex any_pattern page_zero (Some admin0) store25
    = Throw (GraphQLError (SkipErrorMessage (-10)) None).
Proof.
  apply (employees_page_zero any_regex any_pattern page_zero admin0 store25 10);
    [reflexivity|reflexivity|lia|discriminate].
Defined.

(** ** The filter, where the code and its description agree *)

